(** * go.mod diagnostics and quick fixes ([internal/lsp/mod/diagnostics.go])

    A shallow embedding of the three entry points of package [mod]:
    [Diagnostics], [SuggestedFixes] and [ExtractGoCommandError], together with
    their helpers [sameDiagnostic] and [rangeFromPositions].

    Go strings are byte strings and are modelled by [string]; Go [int] values
    are never computed with here and are modelled by [Z]; a Go function that
    returns [(T, error)] is modelled by a function into [result T]; Go maps
    are [gmap]s.  The collaborators the package only consumes (the snapshot,
    the protocol package, [module.Check], the order in which the runtime
    walks a map) are collected in the class [Externals].

    The bug-reporting package [gopls/internal/bug] is embedded in the module
    [bug], as atomic steps on the state of its package variables. *)

From Stdlib Require Import ZArith Ascii.
From stdpp Require Import base option list gmap strings fin_maps.
From stdpp Require Import pretty sorting.

(** ** Errors and fallible results *)

(** A Go [error] value.  [ErrTmpModfileUnsupported] is the sentinel of package
    [source], compared by identity in the code; every other error is
    represented by its text. *)
Inductive error : Type :=
  | ErrTmpModfileUnsupported
  | errorString (msg : string).

Global Instance error_eq_dec : EqDecision error.
Proof. solve_decision. Defined.

(** The pair [(T, error)] returned by a Go function. *)
Inductive result (A : Type) : Type :=
  | Ok (a : A)
  | Err (e : error).
Global Arguments Ok {A} a.
Global Arguments Err {A} e.

Global Instance result_ret : MRet result := λ A a, Ok a.
Global Instance result_bind : MBind result := λ A B f r,
  match r with
  | Ok a => f a
  | Err e => Err e
  end.

Definition isOk {A} (r : result A) : bool :=
  match r with Ok _ => true | Err _ => false end.

(** [fmt.Errorf("no diagnostics for %v", loadErr)] where [text] is
    [loadErr.Error()]. *)
Definition noDiagnosticsFor (text : string) : error :=
  errorString ("no diagnostics for " +:+ text).

(** ** Text helpers of the Go standard library *)

Module strings.

(** [strings.Split(s, sep)] for a one-byte separator: the pieces between the
    separators, always at least one piece. *)
Fixpoint Split (s : string) (sep : ascii) : list string :=
  match s with
  | EmptyString => [EmptyString]
  | String c r =>
      if Ascii.eqb c sep then EmptyString :: Split r sep
      else match Split r sep with
           | seg :: segs => String c seg :: segs
           | [] => [String c EmptyString]
           end
  end.

(** The six one-byte white space characters: tab, line feed, vertical tab,
    form feed, carriage return and space. *)
Definition asciiSpace (n : N) : bool :=
  ((9 <=? n) && (n <=? 13) || (n =? 32))%N.

(** [unicode.IsSpace] on the UTF-8 encoding of a rune, given as the list of
    its bytes: the six characters above, U+0085, U+00A0, U+1680,
    U+2000 to U+200A, U+2028, U+2029, U+202F, U+205F and U+3000. *)
Definition isSpaceRune (bs : list N) : bool :=
  match bs with
  | [a] => asciiSpace a
  | [a; b] => ((a =? 194) && ((b =? 133) || (b =? 160)))%N
  | [a; b; c] =>
      ((a =? 225) && (b =? 154) && (c =? 128)
       || (a =? 226) && (b =? 128)
          && ((128 <=? c) && (c <=? 138) || (c =? 168) || (c =? 169)
              || (c =? 175))
       || (a =? 226) && (b =? 129) && (c =? 159)
       || (a =? 227) && (b =? 128) && (c =? 128))%N
  | _ => false
  end.

(** The number of bytes of the white space rune at the head of [bs], or [0]
    when [bs] does not start with one. *)
Definition leadingSpace (bs : list N) : nat :=
  if isSpaceRune (take 1 bs) then 1
  else if isSpaceRune (take 2 bs) then 2
  else if isSpaceRune (take 3 bs) then 3
  else 0.

(** The same at the end of [bs] (given reversed in [rbs]). *)
Definition trailingSpace (rbs : list N) : nat :=
  if isSpaceRune (reverse (take 1 rbs)) then 1
  else if isSpaceRune (reverse (take 2 rbs)) then 2
  else if isSpaceRune (reverse (take 3 rbs)) then 3
  else 0.

(** Drop white space runes from the head as long as there is one; [fuel]
    bounds the number of runes dropped. *)
Fixpoint dropWhile (width : list N → nat) (fuel : nat) (bs : list N)
    : list N :=
  match fuel with
  | O => bs
  | S fuel' =>
      match width bs with
      | O => bs
      | w => dropWhile width fuel' (drop w bs)
      end
  end.

Definition bytes (s : string) : list N :=
  N_of_ascii <$> String.list_ascii_of_string s.
Definition ofBytes (bs : list N) : string :=
  String.string_of_list_ascii (ascii_of_N <$> bs).

(** [strings.TrimSpace]: white space is removed from the left, then from
    the right of what remains. *)
Definition TrimSpace (s : string) : string :=
  let l := dropWhile leadingSpace (String.length s) (bytes s) in
  ofBytes (reverse (dropWhile trailingSpace (length l) (reverse l))).

End strings.

(** ** The pattern [moduleAtVersionRe]: any text, an [@], any text *)

Module regexp.

Definition newline : ascii := ascii_of_nat 10.

(** Split at the last occurrence of [sep]. *)
Fixpoint splitLast (sep : ascii) (s : string) : option (string * string) :=
  match s with
  | EmptyString => None
  | String c r =>
      match splitLast sep r with
      | Some (m, v) => Some (String c m, v)
      | None => if Ascii.eqb c sep then Some (EmptyString, r) else None
      end
  end.

(** Whether the character [c] occurs in [s]. *)
Fixpoint occurs (c : ascii) (s : string) : bool :=
  match s with
  | EmptyString => false
  | String a r => Ascii.eqb a c || occurs c r
  end.

Fixpoint firstSome {A B} (f : A → option B) (l : list A) : option B :=
  match l with
  | [] => None
  | x :: r => match f x with Some y => Some y | None => firstSome f r end
  end.

(** [moduleAtVersionRe.FindStringSubmatch(s)], reduced to the two groups
    [match[1]] and [match[2]]; [None] is the nil result.  In Go's syntax [.]
    matches every character but a line feed and [.*] is greedy, and the
    leftmost match is returned: the match lies in the first line of [s]
    that contains an [@], the module group runs from the start of that
    line to its last [@], and the version group is the rest of the line. *)
Definition FindStringSubmatch (s : string) : option (string * string) :=
  firstSome (splitLast "@"%char) (strings.Split s newline).

End regexp.

(** ** Collaborators

    What the package consumes from the rest of the repository and from
    [golang.org/x/mod], and does not define itself. *)

(** [span.URI] is a string type. *)
Definition URI : Type := string.

Class Externals := {
  (** [source.FileIdentity], a comparable struct used as a map key. *)
  FileIdentity : Type;
  FileIdentity_eq_dec :: EqDecision FileIdentity;
  FileIdentity_countable :: Countable FileIdentity;
  (** [protocol.Range] and [protocol.CompareRange], whose result is zero when
      the two ranges compare equal. *)
  Range : Type;
  CompareRange : Range → Range → Z;
  (** [protocol.TextEdit], the version of a file handle, [protocol.DocumentURI]
      and [protocol.URIFromSpanURI]. *)
  TextEdit : Type;
  FileVersion : Type;
  DocumentURI : Type;
  URIFromSpanURI : URI → DocumentURI;
  (** [span.Point], [span.Span], [span.NewPoint] and [span.New]. *)
  Point : Type;
  Span : Type;
  NewPoint : Z → Z → Z → Point;
  span_New : URI → Point → Point → Span;
  (** [module.Check(path, version)]; [None] is the nil error. *)
  module_Check : string → string → option error;
  (** The order in which the [n]-th [range] statement over a map of edits
      visits its entries.  Go leaves the order unspecified and lets it
      differ from one loop to the next; every order is a permutation of the
      entries. *)
  rangeOrder : nat → gmap URI (list TextEdit) → list (URI * list TextEdit);
  rangeOrder_perm : ∀ n m, rangeOrder n m ≡ₚ map_to_list m;
}.

(** ** Data model *)

(** Modelled from the spec: the two severities of [protocol], a closed
    two-valued enumeration in this package. *)
Inductive DiagnosticSeverity : Type :=
  | SeverityError
  | SeverityWarning.

(** [protocol.CodeActionKind]; the package only uses [protocol.QuickFix]. *)
Inductive CodeActionKind : Type :=
  | QuickFix.

(** [module.Version]. *)
Record module_Version : Type := {
  Path : string;
  Version : string;
}.

Global Instance module_Version_eq_dec : EqDecision module_Version.
Proof. solve_decision. Defined.

(** The statements of a parsed go.mod file, package [modfile]. *)
Record Position : Type := {
  Position_Line : Z;
  Position_LineRune : Z;
  Position_Byte : Z;
}.

Record Line : Type := {
  Line_Start : Position;
  Line_End : Position;
}.

Record Require : Type := {
  Require_Mod : module_Version;
  Require_Syntax : Line;
}.

Record Exclude : Type := {
  Exclude_Mod : module_Version;
  Exclude_Syntax : Line;
}.

Record Replace : Type := {
  Replace_Old : module_Version;
  Replace_New : module_Version;
  Replace_Syntax : Line;
}.

Record File : Type := {
  File_Require : list Require;
  File_Exclude : list Exclude;
  File_Replace : list Replace;
}.

Section DataModel.
Context `{Externals}.

(** [protocol.Diagnostic], as a client presents it. *)
Record protocol_Diagnostic : Type := {
  protocol_Range : Range;
  protocol_Severity : DiagnosticSeverity;
  protocol_Source : string;
  protocol_Message : string;
}.

(** [source.Diagnostic]. *)
Record Diagnostic : Type := {
  Diagnostic_Message : string;
  Diagnostic_Range : Range;
  Diagnostic_Severity : DiagnosticSeverity;
  Diagnostic_Source : string;
}.

(** [source.SuggestedFix]. *)
Record SuggestedFix : Type := {
  SuggestedFix_Title : string;
  SuggestedFix_Edits : gmap URI (list TextEdit);
}.

(** [source.Error]. *)
Record Error : Type := {
  Error_Message : string;
  Error_Range : Range;
  Error_Category : string;
  Error_URI : URI;
  Error_SuggestedFixes : list SuggestedFix;
}.

(** [protocol.VersionedTextDocumentIdentifier], with the [URI] of the
    embedded [TextDocumentIdentifier]. *)
Record VersionedTextDocumentIdentifier : Type := {
  VersionedTextDocumentIdentifier_Version : FileVersion;
  VersionedTextDocumentIdentifier_URI : DocumentURI;
}.

Record TextDocumentEdit : Type := {
  TextDocumentEdit_TextDocument : VersionedTextDocumentIdentifier;
  TextDocumentEdit_Edits : list TextEdit;
}.

Record WorkspaceEdit : Type := {
  DocumentChanges : list TextDocumentEdit;
}.

Record CodeAction : Type := {
  CodeAction_Title : string;
  CodeAction_Kind : CodeActionKind;
  CodeAction_Diagnostics : list protocol_Diagnostic;
  CodeAction_Edit : WorkspaceEdit;
}.

(** [source.FileHandle]: its methods [URI], [Identity] and [Version]. *)
Record FileHandle : Type := {
  FileHandle_URI : URI;
  Identity : FileIdentity;
  FileHandle_Version : FileVersion;
}.

(** [source.ModTidyHandle]: its method [Tidy]. *)
Record source_ModTidyHandle : Type := {
  Tidy : result (list Error);
}.

(** [protocol.ColumnMapper]: [m.Converter.ToPosition] and [m.Range]. *)
Record ColumnMapper : Type := {
  ToPosition : Z → result (Z * Z);
  ColumnMapper_Range : Span → result Range;
}.

(** [source.ParseModHandle]: its method [Parse], without the third result,
    which the package ignores. *)
Record source_ParseModHandle : Type := {
  Parse : result (File * ColumnMapper);
}.

(** [source.Snapshot]: [ModFile] is [snapshot.View().ModFile()]. *)
Record Snapshot : Type := {
  ModFile : URI;
  GetFile : URI → result FileHandle;
  ModTidyHandle : result source_ModTidyHandle;
  ParseModHandle : FileHandle → result source_ParseModHandle;
}.

End DataModel.

(** ** The package *)

Section Operations.
Context `{Externals}.

(** *** [Diagnostics] *)

(** The diagnostic built in the body of the loop over the analysis errors:
    the struct literal and the choice of the severity. *)
Definition diagnosticOf (e : Error) : Diagnostic :=
  {| Diagnostic_Message := Error_Message e;
     Diagnostic_Range := Error_Range e;
     Diagnostic_Source := Error_Category e;
     Diagnostic_Severity :=
       if decide (Error_Category e = "syntax") then SeverityError
       else SeverityWarning |}.

(** [for _, e := range diagnostics]: resolve the file of the error and append
    the diagnostic to the list of that file; reading an absent key gives the
    nil slice. *)
Fixpoint reportLoop (snapshot : Snapshot) (diagnostics : list Error)
    (reports : gmap FileIdentity (list Diagnostic))
    : result (gmap FileIdentity (list Diagnostic)) :=
  match diagnostics with
  | [] => Ok reports
  | e :: rest =>
      fh ← GetFile snapshot (Error_URI e);
      reportLoop snapshot rest
        (<[Identity fh := default [] (reports !! Identity fh)
                          ++ [diagnosticOf e]]> reports)
  end.

(** The nil map of the early returns is the empty map. *)
Definition Diagnostics (snapshot : Snapshot)
    : result (gmap FileIdentity (list Diagnostic)) :=
  let uri := ModFile snapshot in
  if decide (uri = "") then Ok ∅
  else
    fh ← GetFile snapshot uri;
    match ModTidyHandle snapshot with
    | Err ErrTmpModfileUnsupported => Ok ∅
    | Err err => Err err
    | Ok mth =>
        diagnostics ← Tidy mth;
        reportLoop snapshot diagnostics {[ Identity fh := [] ]}
    end.

(** *** [SuggestedFixes] *)

Definition sameDiagnostic (d : protocol_Diagnostic) (e : Error) : bool :=
  bool_decide (protocol_Message d = Error_Message e)
  && (CompareRange (protocol_Range d) (Error_Range e) =? 0)%Z
  && bool_decide (protocol_Source d = Error_Category e).

(** The index [errorsMap], from a message to the errors that carry it. *)
Fixpoint indexErrors (diagnostics : list Error)
    (errorsMap : gmap string (list Error)) : gmap string (list Error) :=
  match diagnostics with
  | [] => errorsMap
  | e :: rest =>
      let errorsMap1 :=
        match errorsMap !! Error_Message e with
        | None => <[Error_Message e := []]> errorsMap
        | Some _ => errorsMap
        end in
      indexErrors rest
        (<[Error_Message e := default [] (errorsMap1 !! Error_Message e)
                              ++ [e]]> errorsMap1)
  end.

(** [for uri, edits := range fix.Edits], over the entries in the order the
    runtime visits them. *)
Fixpoint editsLoop (snapshot : Snapshot) (entries : list (URI * list TextEdit))
    (changes : list TextDocumentEdit) : result (list TextDocumentEdit) :=
  match entries with
  | [] => Ok changes
  | (uri, edits) :: rest =>
      fh ← GetFile snapshot uri;
      editsLoop snapshot rest
        (changes ++
         [{| TextDocumentEdit_TextDocument :=
               {| VersionedTextDocumentIdentifier_Version :=
                    FileHandle_Version fh;
                  VersionedTextDocumentIdentifier_URI :=
                    URIFromSpanURI (FileHandle_URI fh) |};
             TextDocumentEdit_Edits := edits |}])
  end.

(** The three outer loops thread the number of [range] statements over a map
    executed so far, and the slice [actions]. *)
Fixpoint fixesLoop (snapshot : Snapshot) (diag : protocol_Diagnostic)
    (fixes : list SuggestedFix) (st : nat * list CodeAction)
    : result (nat * list CodeAction) :=
  match fixes with
  | [] => Ok st
  | fix_ :: rest =>
      changes ← editsLoop snapshot
                  (rangeOrder st.1 (SuggestedFix_Edits fix_)) [];
      fixesLoop snapshot diag rest
        (S st.1,
         st.2 ++ [{| CodeAction_Title := SuggestedFix_Title fix_;
                     CodeAction_Kind := QuickFix;
                     CodeAction_Diagnostics := [diag];
                     CodeAction_Edit := {| DocumentChanges := changes |} |}])
  end.

Fixpoint errorsLoop (snapshot : Snapshot) (diag : protocol_Diagnostic)
    (candidates : list Error) (st : nat * list CodeAction)
    : result (nat * list CodeAction) :=
  match candidates with
  | [] => Ok st
  | e :: rest =>
      if negb (sameDiagnostic diag e) then errorsLoop snapshot diag rest st
      else
        st' ← fixesLoop snapshot diag (Error_SuggestedFixes e) st;
        errorsLoop snapshot diag rest st'
  end.

Fixpoint diagsLoop (snapshot : Snapshot)
    (errorsMap : gmap string (list Error)) (diags : list protocol_Diagnostic)
    (st : nat * list CodeAction) : result (nat * list CodeAction) :=
  match diags with
  | [] => Ok st
  | diag :: rest =>
      st' ← errorsLoop snapshot diag
              (default [] (errorsMap !! protocol_Message diag)) st;
      diagsLoop snapshot errorsMap rest st'
  end.

Definition SuggestedFixes (snapshot : Snapshot)
    (diags : list protocol_Diagnostic) : result (list CodeAction) :=
  match ModTidyHandle snapshot with
  | Err ErrTmpModfileUnsupported => Ok []
  | Err err => Err err
  | Ok mth =>
      diagnostics ← Tidy mth;
      st ← diagsLoop snapshot (indexErrors diagnostics ∅) diags (0, []);
      Ok st.2
  end.

(** *** [ExtractGoCommandError] *)

Definition zeroVersion : module_Version := {| Path := ""; Version := "" |}.

(** The loop over the segments of the error text.  [v] is assigned as soon
    as a segment matches the pattern, before [module.Check] is consulted. *)
Fixpoint scanSegments (segments : list string) (v : module_Version)
    : module_Version :=
  match segments with
  | [] => v
  | s :: rest =>
      match regexp.FindStringSubmatch (strings.TrimSpace s) with
      | None => scanSegments rest v
      | Some (path, version) =>
          let v' := {| Path := path; Version := version |} in
          match module_Check path version with
          | None => v'
          | Some _ => scanSegments rest v'
          end
      end
  end.

(** The value of [v] after the loop, for the error text [text]. *)
Definition extractVersion (text : string) : module_Version :=
  scanSegments (strings.Split text ":"%char) zeroVersion.

Definition rangeFromPositions (uri : URI) (m : ColumnMapper) (s e : Position)
    : result Range :=
  let toPoint (offset : Z) : result Point :=
    '(l, c) ← ToPosition m offset;
    Ok (NewPoint l c offset) in
  start ← toPoint (Position_Byte s);
  end_ ← toPoint (Position_Byte e);
  ColumnMapper_Range m (span_New uri start end_).

(** The closure [toDiagnostic]; the literal leaves [Source] at its zero
    value. *)
Definition toDiagnostic (fh : FileHandle) (m : ColumnMapper)
    (loadErr : string) (line : Line) : result Diagnostic :=
  rng ← rangeFromPositions (FileHandle_URI fh) m
          (Line_Start line) (Line_End line);
  Ok {| Diagnostic_Message := loadErr;
        Diagnostic_Range := rng;
        Diagnostic_Severity := SeverityError;
        Diagnostic_Source := "" |}.

(** The three searches, each returning at its first match.  [loadErr] is the
    text [loadErr.Error()]. *)
Definition locate (fh : FileHandle) (m : ColumnMapper) (loadErr : string)
    (parsed : File) (v : module_Version) : result Diagnostic :=
  match List.find (λ req, bool_decide (Require_Mod req = v))
          (File_Require parsed) with
  | Some req => toDiagnostic fh m loadErr (Require_Syntax req)
  | None =>
  match List.find (λ ex, bool_decide (Exclude_Mod ex = v))
          (File_Exclude parsed) with
  | Some ex => toDiagnostic fh m loadErr (Exclude_Syntax ex)
  | None =>
  match List.find (λ rep, negb (bool_decide (Replace_New rep ≠ v)
                                && bool_decide (Replace_Old rep ≠ v)))
          (File_Replace parsed) with
  | Some rep => toDiagnostic fh m loadErr (Replace_Syntax rep)
  | None => Err (noDiagnosticsFor loadErr)
  end end end.

Definition ExtractGoCommandError (snapshot : Snapshot) (fh : FileHandle)
    (loadErr : string) : result Diagnostic :=
  let v := extractVersion loadErr in
  pmh ← ParseModHandle snapshot fh;
  '(parsed, m) ← Parse pmh;
  locate fh m loadErr parsed v.

End Operations.

(** ** Notions used to state the properties *)

Section Notions.
Context `{Externals}.

(** The module and version a segment yields when it matches the pattern and
    passes [module.Check]. *)
Definition validCandidate (segment : string) : option module_Version :=
  match regexp.FindStringSubmatch (strings.TrimSpace segment) with
  | Some (path, version) =>
      match module_Check path version with
      | None => Some {| Path := path; Version := version |}
      | Some _ => None
      end
  | None => None
  end.

(** Token extraction as the specification words it: every trimmed segment is
    split at its last [@]; the first segment whose split passes
    [module.Check] gives the token; the token is the zero value when there is
    none. *)
Definition specCandidate (segment : string) : option module_Version :=
  match regexp.splitLast "@"%char (strings.TrimSpace segment) with
  | Some (path, version) =>
      match module_Check path version with
      | None => Some {| Path := path; Version := version |}
      | Some _ => None
      end
  | None => None
  end.

(** The split of the last segment of [segments] that matches the pattern,
    [v] when none does. *)
Definition lastCandidate (segments : list string) (v : module_Version)
    : module_Version :=
  fold_left
    (λ acc s,
       match regexp.FindStringSubmatch (strings.TrimSpace s) with
       | Some (path, version) => {| Path := path; Version := version |}
       | None => acc
       end)
    segments v.

Definition specExtractVersion (text : string) : module_Version :=
  default zeroVersion
    (regexp.firstSome specCandidate (strings.Split text ":"%char)).

(** [FirstMatch v parsed line]: [line] is the statement the search order of
    the specification selects for the token [v]: the first matching
    [require]; without one, the first matching [exclude]; without one, the
    first [replace] whose new or old module is [v]. *)
Inductive FirstMatch (v : module_Version) (parsed : File) : Line → Prop :=
  | FirstMatch_require pre req post :
      File_Require parsed = pre ++ req :: post →
      Forall (λ r, Require_Mod r ≠ v) pre →
      Require_Mod req = v →
      FirstMatch v parsed (Require_Syntax req)
  | FirstMatch_exclude pre ex post :
      Forall (λ r, Require_Mod r ≠ v) (File_Require parsed) →
      File_Exclude parsed = pre ++ ex :: post →
      Forall (λ x, Exclude_Mod x ≠ v) pre →
      Exclude_Mod ex = v →
      FirstMatch v parsed (Exclude_Syntax ex)
  | FirstMatch_replace pre rep post :
      Forall (λ r, Require_Mod r ≠ v) (File_Require parsed) →
      Forall (λ x, Exclude_Mod x ≠ v) (File_Exclude parsed) →
      File_Replace parsed = pre ++ rep :: post →
      Forall (λ r, Replace_New r ≠ v ∧ Replace_Old r ≠ v) pre →
      Replace_New rep = v ∨ Replace_Old rep = v →
      FirstMatch v parsed (Replace_Syntax rep).

(** No statement of the file references [v]. *)
Definition NoMatch (v : module_Version) (parsed : File) : Prop :=
  Forall (λ r, Require_Mod r ≠ v) (File_Require parsed)
  ∧ Forall (λ x, Exclude_Mod x ≠ v) (File_Exclude parsed)
  ∧ Forall (λ r, Replace_New r ≠ v ∧ Replace_Old r ≠ v) (File_Replace parsed).

(** The file identity an analysis error is reported against, when its URI
    resolves. *)
Definition identityOf (snapshot : Snapshot) (e : Error)
    : option FileIdentity :=
  match GetFile snapshot (Error_URI e) with
  | Ok fh => Some (Identity fh)
  | Err _ => None
  end.

(** The join of the specification: the input diagnostics in the order given,
    for each the analysis errors equal to it in analysis order, for each of
    those its suggested fixes in order. *)
Definition join (errs : list Error) (diags : list protocol_Diagnostic)
    : list (protocol_Diagnostic * Error * SuggestedFix) :=
  d ← diags;
  e ← filter (λ e, sameDiagnostic d e = true) errs;
  fix_ ← Error_SuggestedFixes e;
  [(d, e, fix_)].

(** The group of edits of one file in a code action. *)
Definition documentEdit (fh : FileHandle) (edits : list TextEdit)
    : TextDocumentEdit :=
  {| TextDocumentEdit_TextDocument :=
       {| VersionedTextDocumentIdentifier_Version := FileHandle_Version fh;
          VersionedTextDocumentIdentifier_URI :=
            URIFromSpanURI (FileHandle_URI fh) |};
     TextDocumentEdit_Edits := edits |}.

(** [changes] resolves every file the fix touches, each once, in some
    order. *)
Definition CompleteEdits (snapshot : Snapshot) (fix_ : SuggestedFix)
    (changes : list TextDocumentEdit) : Prop :=
  ∃ entries,
    entries ≡ₚ map_to_list (SuggestedFix_Edits fix_)
    ∧ Forall2 (λ entry change,
                 ∃ fh, GetFile snapshot entry.1 = Ok fh
                       ∧ change = documentEdit fh entry.2)
              entries changes.

(** The action [a] is the one built for the diagnostic, error and fix of
    [t]. *)
Definition DerivedFrom (snapshot : Snapshot)
    (t : protocol_Diagnostic * Error * SuggestedFix) (a : CodeAction) : Prop :=
  CodeAction_Title a = SuggestedFix_Title t.2
  ∧ CodeAction_Kind a = QuickFix
  ∧ CodeAction_Diagnostics a = [t.1.1]
  ∧ CompleteEdits snapshot t.2 (DocumentChanges (CodeAction_Edit a)).

(** The loop body of [SuggestedFixes] run over a list of joined triples:
    the three nested loops flattened into one. *)
Fixpoint triplesLoop (snapshot : Snapshot)
    (ts : list (protocol_Diagnostic * Error * SuggestedFix))
    (st : nat * list CodeAction) : result (nat * list CodeAction) :=
  match ts with
  | [] => Ok st
  | t :: rest =>
      changes ← editsLoop snapshot
                  (rangeOrder st.1 (SuggestedFix_Edits t.2)) [];
      triplesLoop snapshot rest
        (S st.1,
         st.2 ++ [{| CodeAction_Title := SuggestedFix_Title t.2;
                     CodeAction_Kind := QuickFix;
                     CodeAction_Diagnostics := [t.1.1];
                     CodeAction_Edit := {| DocumentChanges := changes |} |}])
  end.

(** Every file touched by the fix resolves. *)
Definition Resolves (snapshot : Snapshot) (fix_ : SuggestedFix) : Prop :=
  ∀ uri, uri ∈ dom (SuggestedFix_Edits fix_) →
         isOk (GetFile snapshot uri) = true.

End Notions.

(** ** Further notions *)

Section MoreNotions.
Context `{Externals}.

(** The number of diagnostics in a report, over all files. *)
Definition totalDiagnostics (m : gmap FileIdentity (list Diagnostic)) : nat :=
  sum_list_with (λ entry, length entry.2) (map_to_list m).

(** What the client sees of an action besides its edits. *)
Definition titleAndDiagnostics (a : CodeAction)
    : string * list protocol_Diagnostic :=
  (CodeAction_Title a, CodeAction_Diagnostics a).

End MoreNotions.

(** ** A concrete setting for the examples *)

(** A stand-in for [module.Check] that accepts a non-empty path with a
    version that starts with [v]. *)
Definition sampleCheck (path version : string) : option error :=
  if bool_decide (path ≠ "") && String.prefix "v" version then None
  else Some (errorString "malformed module path or version").

(** Ranges are pairs of offsets compared lexicographically, file identities
    are URIs, and a map is walked in the order of [map_to_list]. *)
Definition sampleExternals : Externals := {|
  FileIdentity := string;
  Range := Z * Z;
  CompareRange := λ a b,
    match (a.1 ?= b.1)%Z with
    | Lt => (-1)%Z
    | Gt => 1%Z
    | Eq => match (a.2 ?= b.2)%Z with Lt => (-1)%Z | Gt => 1%Z | Eq => 0%Z end
    end;
  TextEdit := string;
  FileVersion := Z;
  DocumentURI := string;
  URIFromSpanURI := λ uri, uri;
  Point := Z * Z * Z;
  Span := URI * (Z * Z * Z) * (Z * Z * Z);
  NewPoint := λ l c offset, (l, c, offset);
  span_New := λ uri s e, (uri, s, e);
  module_Check := sampleCheck;
  rangeOrder := λ _ m, map_to_list m;
  rangeOrder_perm := λ _ m, reflexivity (map_to_list m);
|}.

Section Samples.
Existing Instance sampleExternals.

Definition sampleHandle (uri : URI) : FileHandle :=
  {| FileHandle_URI := uri; Identity := uri; FileHandle_Version := 1%Z |}.

(** Line and column of an offset in a file of one line. *)
Definition sampleMapper : ColumnMapper :=
  {| ToPosition := λ offset, Ok (0%Z, offset);
     ColumnMapper_Range := λ sp, Ok (sp.1.2.2, sp.2.2) |}.

Definition lineAt (s e : Z) : Line :=
  {| Line_Start := {| Position_Line := 1; Position_LineRune := 1;
                      Position_Byte := s |};
     Line_End := {| Position_Line := 1; Position_LineRune := 1;
                    Position_Byte := e |} |}.

Definition exampleCom : module_Version :=
  {| Path := "example.com"; Version := "v1.2.2" |}.

(** A manifest in which a [replace], an [exclude] and a [require] statement
    reference [example.com] at [v1.2.2], and a [replace] of [example.com/foo]
    by a directory. *)
Definition sampleFile : File :=
  {| File_Require :=
       [{| Require_Mod := {| Path := "example.org"; Version := "v0.1.0" |};
           Require_Syntax := lineAt 20 41 |};
        {| Require_Mod := exampleCom; Require_Syntax := lineAt 42 68 |}];
     File_Exclude :=
       [{| Exclude_Mod := exampleCom; Exclude_Syntax := lineAt 70 96 |}];
     File_Replace :=
       [{| Replace_Old := exampleCom;
           Replace_New := {| Path := "../fork"; Version := "" |};
           Replace_Syntax := lineAt 98 135 |};
        {| Replace_Old := {| Path := "example.com/foo"; Version := "" |};
           Replace_New := {| Path := "../foo"; Version := "" |};
           Replace_Syntax := lineAt 136 170 |}] |}.

Definition sampleText : string :=
  "go: example.com@v1.2.2: reading example.com/@v/v1.2.2.mod: no such file or directory".

(** Three analysis errors: a syntax error and an unused requirement in the
    manifest, and a missing requirement reported against a source file. *)
Definition removeFix : SuggestedFix :=
  {| SuggestedFix_Title := "Remove dependency: example.org";
     SuggestedFix_Edits := {[ "file:///go.mod" := ["delete 20-41"] ]} |}.

Definition addFix : SuggestedFix :=
  {| SuggestedFix_Title := "Add example.net to your go.mod file";
     SuggestedFix_Edits := {[ "file:///go.mod" := ["insert at 69"] ]} |}.

Definition syntaxError : Error :=
  {| Error_Message := "usage: require module/path v1.2.3";
     Error_Range := (5%Z, 12%Z);
     Error_Category := "syntax";
     Error_URI := "file:///go.mod";
     Error_SuggestedFixes := [] |}.

Definition unusedError : Error :=
  {| Error_Message := "example.org is not used in this module";
     Error_Range := (20%Z, 41%Z);
     Error_Category := "go mod tidy";
     Error_URI := "file:///go.mod";
     Error_SuggestedFixes := [removeFix] |}.

Definition missingError : Error :=
  {| Error_Message := "example.net is not in your go.mod file";
     Error_Range := (3%Z, 16%Z);
     Error_Category := "go mod tidy";
     Error_URI := "file:///main.go";
     Error_SuggestedFixes := [addFix] |}.

Definition sampleErrors : list Error :=
  [syntaxError; missingError; unusedError].

(** The client's copies of the diagnostics of [unusedError] and
    [missingError]. *)
Definition unusedDiag : protocol_Diagnostic :=
  {| protocol_Range := (20%Z, 41%Z);
     protocol_Severity := SeverityWarning;
     protocol_Source := "go mod tidy";
     protocol_Message := "example.org is not used in this module" |}.

Definition missingDiag : protocol_Diagnostic :=
  {| protocol_Range := (3%Z, 16%Z);
     protocol_Severity := SeverityWarning;
     protocol_Source := "go mod tidy";
     protocol_Message := "example.net is not in your go.mod file" |}.

(** A second error with the message, range and category of [unusedError],
    reported against another file and carrying a fix with the same title
    that touches two files. *)
Definition removeFix2 : SuggestedFix :=
  {| SuggestedFix_Title := "Remove dependency: example.org";
     SuggestedFix_Edits :=
       {[ "file:///go.mod" := ["delete 20-41"];
          "file:///go.sum" := ["delete 0-90"] ]} |}.

Definition unusedError2 : Error :=
  {| Error_Message := "example.org is not used in this module";
     Error_Range := (20%Z, 41%Z);
     Error_Category := "go mod tidy";
     Error_URI := "file:///tools.go";
     Error_SuggestedFixes := [removeFix2] |}.

(** An error with the message and range of [unusedError] in the category
    [syntax], and the client's diagnostic for it: [unusedDiag] with another
    source. *)
Definition rewriteFix : SuggestedFix :=
  {| SuggestedFix_Title := "Rewrite the require statement";
     SuggestedFix_Edits := {[ "file:///go.mod" := ["replace 20-41"] ]} |}.

Definition unusedSyntaxError : Error :=
  {| Error_Message := "example.org is not used in this module";
     Error_Range := (20%Z, 41%Z);
     Error_Category := "syntax";
     Error_URI := "file:///go.mod";
     Error_SuggestedFixes := [rewriteFix] |}.

Definition unusedSyntaxDiag : protocol_Diagnostic :=
  {| protocol_Range := protocol_Range unusedDiag;
     protocol_Severity := protocol_Severity unusedDiag;
     protocol_Source := "syntax";
     protocol_Message := protocol_Message unusedDiag |}.

(** A fix over two files, one of which does not resolve. *)
Definition goneFix : SuggestedFix :=
  {| SuggestedFix_Title := "Add example.net to your go.mod file";
     SuggestedFix_Edits :=
       {[ "file:///go.mod" := ["insert at 69"];
          "file:///gone" := ["insert at 0"] ]} |}.

Definition missingError2 : Error :=
  {| Error_Message := "example.net is not in your go.mod file";
     Error_Range := (3%Z, 16%Z);
     Error_Category := "go mod tidy";
     Error_URI := "file:///main.go";
     Error_SuggestedFixes := [goneFix] |}.

(** An analysis error against a file that does not resolve. *)
Definition goneError : Error :=
  {| Error_Message := "example.net is not in your go.mod file";
     Error_Range := (7%Z, 19%Z);
     Error_Category := "go mod tidy";
     Error_URI := "file:///gone";
     Error_SuggestedFixes := [] |}.

(** A snapshot whose manifest parses to [sampleFile]; every URI resolves
    but [file:///gone]. *)
Definition sampleSnapshot (errs : list Error) : Snapshot :=
  {| ModFile := "file:///go.mod";
     GetFile := λ uri,
       if bool_decide (uri = "file:///gone")
       then Err (errorString "file does not exist")
       else Ok (sampleHandle uri);
     ModTidyHandle := Ok {| Tidy := Ok errs |};
     ParseModHandle := λ _,
       Ok {| Parse := Ok (sampleFile, sampleMapper) |} |}.

(** A snapshot without a manifest, whose collaborators all fail. *)
Definition brokenSnapshot : Snapshot :=
  {| ModFile := "";
     GetFile := λ _, Err (errorString "file does not exist");
     ModTidyHandle := Err (errorString "go command failed");
     ParseModHandle := λ _, Err (errorString "go.mod does not parse") |}.

(** A mapper for a file of [size] bytes: offsets beyond the end do not
    convert. *)
Definition boundedMapper (size : Z) : ColumnMapper :=
  {| ToPosition := λ offset,
       if bool_decide (offset ≤ size)%Z then Ok (0%Z, offset)
       else Err (errorString "offset out of range");
     ColumnMapper_Range := λ sp, Ok (sp.1.2.2, sp.2.2) |}.

(** The manifest [sampleFile] with a mapper for its first [size] bytes. *)
Definition truncatedSnapshot (size : Z) : Snapshot :=
  {| ModFile := "file:///go.mod";
     GetFile := λ uri, Ok (sampleHandle uri);
     ModTidyHandle := Ok {| Tidy := Ok [] |};
     ParseModHandle := λ _,
       Ok {| Parse := Ok (sampleFile, boundedMapper size) |} |}.

(** A snapshot with a working analysis in which no file resolves. *)
Definition unresolvableSnapshot (errs : list Error) : Snapshot :=
  {| ModFile := "file:///go.mod";
     GetFile := λ _, Err (errorString "file does not exist");
     ModTidyHandle := Ok {| Tidy := Ok errs |};
     ParseModHandle := λ _, Err (errorString "go.mod does not parse") |}.

(** The same snapshot, without a manifest. *)
Definition withoutManifest (snapshot : Snapshot) : Snapshot :=
  {| ModFile := "";
     GetFile := GetFile snapshot;
     ModTidyHandle := ModTidyHandle snapshot;
     ParseModHandle := ParseModHandle snapshot |}.

End Samples.

(** ** Package [bug] ([gopls/internal/bug/bug.go])

    The package keeps its state in three variables guarded by one mutex;
    every function holds the mutex for its whole body, so each call is one
    atomic step on the state [State].  The call site found by
    [runtime.Caller(2)] and the stack printed by [debug.Stack()] are
    arguments of the model. *)

Module bug.

Record Bug : Type := {
  File : string;
  Line : Z;
  Description : string;
  Key : string;
  Stack : string;
}.

(** A channel made by [make(chan Bug, 1)]: the bug in its one buffer slot,
    and the bugs its reader has taken out so far. *)
Record Chan : Type := {
  buffer : option Bug;
  received : list Bug;
}.

(** Every bug ever sent on the channel. *)
Definition sent (c : Chan) : list Bug := received c ++ option_list (buffer c).

(** The package variables.  The nil map of [exemplars] is the empty map;
    [waiters] holds channels by their index in [channels], the channels
    made so far. *)
Record State : Type := {
  PanicOnBugs : bool;
  exemplars : gmap string Bug;
  waiters : list nat;
  channels : list Chan;
}.

Definition init : State :=
  {| PanicOnBugs := false; exemplars := ∅; waiters := []; channels := [] |}.

(** How a call ends: it returns, it panics, or it blocks in a send. *)
Inductive outcome (A : Type) : Type :=
  | Returns (a : A) (st : State)
  | Panics (msg : string)
  | Blocks.
Global Arguments Returns {A} a st.
Global Arguments Panics {A} msg.
Global Arguments Blocks {A}.

(** What the package takes from the runtime and from [fmt]: the texts of
    [fmt.Sprintf(format, args...)] and of [fmt.Errorf(format, args...)], and
    the order in which a [range] over [exemplars] visits the map. *)
Class Runtime := {
  Arg : Type;
  Sprintf : string → list Arg → string;
  ErrorfText : string → list Arg → string;
  rangeExemplars : gmap string Bug → list (string * Bug);
  rangeExemplars_perm : ∀ m, rangeExemplars m ≡ₚ map_to_list m;
}.

(** [key] in [report]: [caller] is [Some (file, line)] when [runtime.Caller]
    reports [ok], and [None] otherwise. *)
Definition keyOf (caller : option (string * Z)) : string :=
  match caller with
  | Some (file, line) => file +:+ ":" +:+ pretty line
  | None => "<missing callsite>"
  end.

(** The struct literal of [report]; [file] and [line] are zero values when
    the caller is unknown. *)
Definition newBug (caller : option (string * Z)) (stack description : string)
    : Bug :=
  {| File := match caller with Some (file, _) => file | None => "" end;
     Line := match caller with Some (_, line) => line | None => 0%Z end;
     Description := description;
     Key := keyOf caller;
     Stack := stack |}.

(** [for _, waiter := range waiters { waiter <- bug }].  A send proceeds
    when the buffer slot of the channel is free and blocks when it is
    taken. *)
Fixpoint notifyWaiters (ws : list nat) (bug : Bug) (chans : list Chan)
    : option (list Chan) :=
  match ws with
  | [] => Some chans
  | w :: rest =>
      match chans !! w with
      | Some {| buffer := None; received := r |} =>
          notifyWaiters rest bug
            (<[w := {| buffer := Some bug; received := r |}]> chans)
      | _ => None
      end
  end.

Definition report (caller : option (string * Z)) (stack description : string)
    (st : State) : outcome unit :=
  let key := keyOf caller in
  if PanicOnBugs st then Panics (key +:+ ": " +:+ description)
  else
    let bug := newBug caller stack description in
    let exemplars1 :=
      match exemplars st !! key with
      | Some _ => exemplars st
      | None => <[key := bug]> (exemplars st)
      end in
    match notifyWaiters (waiters st) bug (channels st) with
    | Some chans =>
        Returns () {| PanicOnBugs := PanicOnBugs st;
                      exemplars := exemplars1;
                      waiters := [];
                      channels := chans |}
    | None => Blocks
    end.

Definition Report (caller : option (string * Z)) (stack description : string)
    (st : State) : outcome unit :=
  report caller stack description st.

Definition Reportf `{Runtime} (caller : option (string * Z)) (stack : string)
    (format : string) (args : list Arg) (st : State) : outcome unit :=
  report caller stack (Sprintf format args) st.

Definition Errorf `{Runtime} (caller : option (string * Z)) (stack : string)
    (format : string) (args : list Arg) (st : State) : outcome error :=
  let err := errorString (ErrorfText format args) in
  match report caller stack (ErrorfText format args) st with
  | Returns _ st' => Returns err st'
  | Panics msg => Panics msg
  | Blocks => Blocks
  end.

(** [Notify]: the new channel is the next index of [channels]. *)
Definition Notify (st : State) : nat * State :=
  (length (channels st),
   {| PanicOnBugs := PanicOnBugs st;
      exemplars := exemplars st;
      waiters := waiters st ++ [length (channels st)];
      channels := channels st ++ [{| buffer := None; received := [] |}] |}).

(** [List]: the exemplars in the order of the walk, sorted by key.
    [sort.Slice] promises a sorted permutation and no more; [merge_sort] is
    one. *)
Definition keyLe (a b : Bug) : Prop := String.leb (Key a) (Key b) = true.

Global Instance keyLe_dec a b : Decision (keyLe a b).
Proof. unfold keyLe. apply _. Defined.

Definition List `{Runtime} (st : State) : list Bug :=
  merge_sort keyLe ((rangeExemplars (exemplars st)).*2).

(** What surrounds the package: a reader takes the bug out of the buffer of
    its channel, and a test sets [PanicOnBugs]. *)
Definition Receive (ch : nat) (st : State) : State :=
  match channels st !! ch with
  | Some {| buffer := Some b; received := r |} =>
      {| PanicOnBugs := PanicOnBugs st;
         exemplars := exemplars st;
         waiters := waiters st;
         channels := <[ch := {| buffer := None; received := r ++ [b] |}]>
                       (channels st) |}
  | _ => st
  end.

Definition SetPanicOnBugs (b : bool) (st : State) : State :=
  {| PanicOnBugs := b;
     exemplars := exemplars st;
     waiters := waiters st;
     channels := channels st |}.

(** A history of the package: reports (through any of the three exported
    functions), calls of [Notify], reads of a channel and assignments of
    [PanicOnBugs].  A report that panics leaves the state as it is; a
    report that blocks ends the history. *)
Inductive Op : Type :=
  | OpReport (caller : option (string * Z)) (stack description : string)
  | OpNotify
  | OpReceive (ch : nat)
  | OpSetPanic (b : bool).

Definition step (op : Op) (st : State) : option State :=
  match op with
  | OpReport caller stack description =>
      match report caller stack description st with
      | Returns _ st' => Some st'
      | Panics _ => Some st
      | Blocks => None
      end
  | OpNotify => Some (Notify st).2
  | OpReceive ch => Some (Receive ch st)
  | OpSetPanic b => Some (SetPanicOnBugs b st)
  end.

Fixpoint run (ops : list Op) (st : State) : option State :=
  match ops with
  | [] => Some st
  | op :: rest =>
      match step op st with
      | Some st' => run rest st'
      | None => None
      end
  end.

(** A channel as [Notify] makes it. *)
Definition emptyChan : Chan := {| buffer := None; received := [] |}.

(** What every history keeps true: an exemplar is filed under its own key;
    the waiting channels are distinct and nothing was ever sent on them; no
    channel was sent more than one bug. *)
Definition Inv (st : State) : Prop :=
  (∀ k b, exemplars st !! k = Some b → Key b = k)
  ∧ NoDup (waiters st)
  ∧ (∀ w, w ∈ waiters st → channels st !! w = Some emptyChan)
  ∧ (∀ ch c, channels st !! ch = Some c → length (sent c) ≤ 1).

(** A history, from a state, in which no report returns: each report of it
    panics.  Calls of [Notify], reads and assignments of [PanicOnBugs] are
    free. *)
Fixpoint noReturn (ops : list Op) (st : State) : bool :=
  match ops with
  | [] => true
  | OpReport caller stack description :: rest =>
      match report caller stack description st with
      | Panics _ => noReturn rest st
      | _ => false
      end
  | op :: rest =>
      match step op st with
      | Some st' => noReturn rest st'
      | None => true
      end
  end.

(** The order of the examples: the walk of [map_to_list]. *)
Definition sampleRuntime : Runtime := {|
  Arg := string;
  Sprintf := λ format args, format +:+ String.concat " " args;
  ErrorfText := λ format args, format +:+ String.concat " " args;
  rangeExemplars := map_to_list;
  rangeExemplars_perm := λ m, reflexivity (map_to_list m);
|}.

End bug.

(** * Properties *)

(** ** The pattern *)

Lemma splitLast_None sep s :
  regexp.splitLast sep s = None ↔ regexp.occurs sep s = false.
Proof.
  induction s as [|c r IH]; simpl; [done|].
  destruct (regexp.splitLast sep r) as [[m v]|].
  - destruct IH as [_ IH]. split; [done|].
    intros [_ Hr]%orb_false_iff. by apply IH in Hr.
  - destruct IH as [IH _]. rewrite (IH eq_refl), orb_false_r.
    by destruct (Ascii.eqb c sep).
Qed.

(** The split is at the last separator: the two groups, put back around the
    separator, give the text, and the second group has no separator. *)
Lemma splitLast_Some sep s m v :
  regexp.splitLast sep s = Some (m, v) →
  s = m +:+ String sep v ∧ regexp.occurs sep v = false.
Proof.
  revert m. induction s as [|c r IH]; intros m; simpl; [done|].
  destruct (regexp.splitLast sep r) as [[m' v']|] eqn:Hr.
  - intros [= <- <-]. destruct (IH m' eq_refl) as [-> Hv]. by split.
  - destruct (Ascii.eqb c sep) eqn:Hc; [|done].
    apply Ascii.eqb_eq in Hc as ->. intros [= <- <-]. split; [done|].
    by apply splitLast_None.
Qed.

Lemma Split_no_separator s sep :
  regexp.occurs sep s = false → strings.Split s sep = [s].
Proof.
  induction s as [|c r IH]; simpl; [done|].
  intros [Hc Hr]%orb_false_iff. rewrite Hc, (IH Hr). done.
Qed.

(** On a text of one line the pattern splits at the last [@]. *)
Lemma FindStringSubmatch_one_line s :
  regexp.occurs regexp.newline s = false →
  regexp.FindStringSubmatch s = regexp.splitLast "@"%char s.
Proof.
  intros Hs. unfold regexp.FindStringSubmatch.
  rewrite (Split_no_separator _ _ Hs). simpl.
  by destruct (regexp.splitLast _ s).
Qed.

Example Split_segments :
  strings.Split "go: a@v1: x" ":"%char = ["go"; " a@v1"; " x"].
Proof. reflexivity. Qed.

Example Split_empty : strings.Split "" ":"%char = [""].
Proof. reflexivity. Qed.

Example TrimSpace_ascii :
  strings.TrimSpace (String (ascii_of_nat 9) " a b  ") = "a b".
Proof. reflexivity. Qed.

(** A no-break space (bytes 194, 160) in front and an en quad (bytes 226,
    128, 128) behind are trimmed too. *)
Example TrimSpace_unicode :
  strings.TrimSpace
    (strings.ofBytes [194; 160; 97; 32; 98; 226; 128; 128]%N) = "a b".
Proof. reflexivity. Qed.

Example FindStringSubmatch_last_at :
  regexp.FindStringSubmatch "a@b@c" = Some ("a@b", "c").
Proof. reflexivity. Qed.

(** With a line feed in the text the match stays within the first line that
    has an [@], whereas the last [@] of the text is in the second line. *)
Example FindStringSubmatch_two_lines :
  regexp.FindStringSubmatch
    ("example.com@v1.2.2" +:+ String regexp.newline "see user@host")
  = Some ("example.com", "v1.2.2")
  ∧ regexp.splitLast "@"%char
      ("example.com@v1.2.2" +:+ String regexp.newline "see user@host")
    = Some ("example.com@v1.2.2" +:+ String regexp.newline "see user", "host").
Proof. split; reflexivity. Qed.

(** *** Characters are only removed *)

Lemma occurs_elem_of c s :
  regexp.occurs c s = true ↔ c ∈ String.list_ascii_of_string s.
Proof.
  induction s as [|a r IH]; simpl.
  - split; [done|]. by intros ?%elem_of_nil.
  - rewrite orb_true_iff, IH, elem_of_cons, Ascii.eqb_eq. naive_solver.
Qed.

Lemma dropWhile_subseteq width fuel bs :
  strings.dropWhile width fuel bs ⊆ bs.
Proof.
  revert bs. induction fuel as [|fuel IH]; intros bs; simpl; [done|].
  destruct (width bs) as [|w]; [done|].
  etrans; [apply IH|apply subseteq_drop].
Qed.

Lemma TrimSpace_occurs c s :
  regexp.occurs c (strings.TrimSpace s) = true → regexp.occurs c s = true.
Proof.
  rewrite !occurs_elem_of. unfold strings.TrimSpace, strings.ofBytes.
  rewrite String.list_ascii_of_string_of_list_ascii.
  intros (n & -> & Hn)%list_elem_of_fmap.
  rewrite elem_of_reverse in Hn. apply dropWhile_subseteq in Hn.
  rewrite elem_of_reverse in Hn. apply dropWhile_subseteq in Hn.
  unfold strings.bytes in Hn.
  apply list_elem_of_fmap in Hn as (a & -> & Ha).
  by rewrite ascii_N_embedding.
Qed.

Lemma Split_occurs c s sep seg :
  seg ∈ strings.Split s sep →
  regexp.occurs c seg = true → regexp.occurs c s = true.
Proof.
  revert seg. induction s as [|a r IH]; intros seg; simpl.
  - by intros ->%list_elem_of_singleton.
  - destruct (Ascii.eqb a sep).
    + intros [->|Hin]%elem_of_cons; [done|].
      intros Hc. rewrite (IH seg Hin Hc). apply orb_true_r.
    + destruct (strings.Split r sep) as [|seg' segs] eqn:Hsplit.
      * intros ->%list_elem_of_singleton. simpl.
        rewrite orb_false_r. by intros ->.
      * intros [->|Hin]%elem_of_cons; simpl.
        -- intros [->|Hc]%orb_true_iff; [done|].
           rewrite (IH seg'); [apply orb_true_r|by left|done].
        -- intros Hc. rewrite (IH seg); [apply orb_true_r|by right|done].
Qed.

Lemma firstSome_None {A B} (f : A → option B) l :
  Forall (λ x, f x = None) l → regexp.firstSome f l = None.
Proof. induction 1 as [|x l Hx _ IH]; simpl; [done|]. by rewrite Hx. Qed.

Lemma firstSome_ext {A B} (f g : A → option B) l :
  Forall (λ x, f x = g x) l → regexp.firstSome f l = regexp.firstSome g l.
Proof.
  induction 1 as [|x l Hx _ IH]; simpl; [done|]. by rewrite Hx, IH.
Qed.

(** A text without [@] does not match the pattern. *)
Lemma FindStringSubmatch_no_at s :
  regexp.occurs "@"%char s = false → regexp.FindStringSubmatch s = None.
Proof.
  intros Hs. apply firstSome_None, Forall_forall. intros line Hline.
  apply splitLast_None, not_true_is_false. intros Hat.
  by rewrite (Split_occurs _ _ _ _ Hline Hat) in Hs.
Qed.

(** ** Token extraction *)

(** Evaluate the text functions on the literals of the goal. *)
Ltac eval_text :=
  repeat match goal with
    | |- context [strings.Split ?s ?c] =>
        let r := eval vm_compute in (strings.Split s c) in
        change (strings.Split s c) with r
    | |- context [strings.TrimSpace ?s] =>
        let r := eval vm_compute in (strings.TrimSpace s) in
        change (strings.TrimSpace s) with r
    | |- context [regexp.FindStringSubmatch ?s] =>
        let r := eval vm_compute in (regexp.FindStringSubmatch s) in
        change (regexp.FindStringSubmatch s) with r
    | |- context [regexp.splitLast ?c ?s] =>
        let r := eval vm_compute in (regexp.splitLast c s) in
        change (regexp.splitLast c s) with r
    end;
  cbv beta iota.

Section TokenExtraction.
Context `{Externals}.

Lemma scanSegments_no_candidate segments v :
  Forall (λ s, regexp.FindStringSubmatch (strings.TrimSpace s) = None)
         segments →
  scanSegments segments v = v.
Proof.
  induction 1 as [|s rest Hs _ IH]; simpl; [done|]. by rewrite Hs.
Qed.

(** The scan stops at the first segment that yields a valid candidate. *)
Lemma scanSegments_first_valid segments v t :
  regexp.firstSome validCandidate segments = Some t →
  scanSegments segments v = t.
Proof.
  revert v. induction segments as [|s rest IH]; intros v; simpl; [done|].
  unfold validCandidate.
  destruct (regexp.FindStringSubmatch _) as [[path version]|]; [|by auto].
  destruct (module_Check path version); [by auto|]. by intros [= <-].
Qed.

(** Without a valid candidate the scan ends with the last segment that
    matched the pattern, valid or not. *)
Lemma scanSegments_none_valid segments v :
  regexp.firstSome validCandidate segments = None →
  scanSegments segments v = lastCandidate segments v.
Proof.
  unfold lastCandidate.
  revert v. induction segments as [|s rest IH]; intros v; simpl; [done|].
  unfold validCandidate.
  destruct (regexp.FindStringSubmatch _) as [[path version]|]; [|by auto].
  destruct (module_Check path version); [by auto|done].
Qed.

Lemma extractVersion_no_candidate text :
  Forall (λ s, regexp.FindStringSubmatch (strings.TrimSpace s) = None)
         (strings.Split text ":"%char) →
  extractVersion text = zeroVersion.
Proof. apply scanSegments_no_candidate. Qed.

(** A text without [@] leaves the token at its zero value. *)
Lemma extractVersion_no_at text :
  regexp.occurs "@"%char text = false → extractVersion text = zeroVersion.
Proof.
  intros Htext. apply extractVersion_no_candidate, Forall_forall.
  intros seg Hseg. apply FindStringSubmatch_no_at, not_true_is_false.
  intros Hat%TrimSpace_occurs.
  by rewrite (Split_occurs _ _ _ _ Hseg Hat) in Htext.
Qed.

(** On segments of one line the candidates of the code are those of the
    specification, and when one of them is valid the loop returns the token
    of the specification. *)
Lemma validCandidate_one_line segment :
  regexp.occurs regexp.newline (strings.TrimSpace segment) = false →
  validCandidate segment = specCandidate segment.
Proof.
  intros Hline. unfold validCandidate, specCandidate.
  by rewrite (FindStringSubmatch_one_line _ Hline).
Qed.

Lemma extractVersion_refines text t :
  Forall (λ s, regexp.occurs regexp.newline (strings.TrimSpace s) = false)
         (strings.Split text ":"%char) →
  regexp.firstSome specCandidate (strings.Split text ":"%char) = Some t →
  extractVersion text = t ∧ specExtractVersion text = t.
Proof.
  intros Hlines Hfirst. unfold specExtractVersion. rewrite Hfirst.
  split; [|done]. apply scanSegments_first_valid. rewrite <-Hfirst.
  apply firstSome_ext. eapply Forall_impl; [exact Hlines|].
  intros s Hs. by apply validCandidate_one_line.
Qed.

(** The example of the specification: the first segment with an [@] is
    taken, although a later one has an [@] too. *)
Lemma extractVersion_example :
  module_Check "example.com" "v1.2.2" = None →
  extractVersion
    "go: example.com@v1.2.2: reading example.com/@v/v1.2.2.mod: no such file or directory"
  = {| Path := "example.com"; Version := "v1.2.2" |}.
Proof.
  intros Hcheck. apply scanSegments_first_valid.
  eval_text. cbn [regexp.firstSome]. unfold validCandidate. eval_text.
  by rewrite Hcheck.
Qed.

End TokenExtraction.

(** C2, at an input where the code departs from it: in the text
    [go: example.com@latest: unknown revision latest] no segment yields a
    candidate that passes [module.Check] (which rejects the version
    [latest]), so the token of the specification is the zero value; the
    loop of [ExtractGoCommandError] ends with the rejected candidate
    instead. *)
Theorem extractVersion_keeps_rejected_candidate `{Externals} :
  module_Check "example.com" "latest" ≠ None →
  regexp.firstSome validCandidate
    (strings.Split "go: example.com@latest: unknown revision latest" ":"%char)
  = None
  ∧ specExtractVersion "go: example.com@latest: unknown revision latest"
    = zeroVersion
  ∧ extractVersion "go: example.com@latest: unknown revision latest"
    = {| Path := "example.com"; Version := "latest" |}.
Proof.
  intros Hcheck.
  assert (regexp.firstSome validCandidate
            (strings.Split "go: example.com@latest: unknown revision latest"
                           ":"%char) = None) as Hnone.
  { eval_text. cbn [regexp.firstSome]. unfold validCandidate. eval_text.
    by destruct (module_Check "example.com" "latest"). }
  split_and!; [done| |].
  - unfold specExtractVersion. eval_text. cbn [regexp.firstSome].
    unfold specCandidate. eval_text.
    by destruct (module_Check "example.com" "latest").
  - unfold extractVersion. rewrite (scanSegments_none_valid _ _ Hnone).
    unfold lastCandidate. eval_text. cbn [fold_left]. by eval_text.
Qed.

Lemma extractVersion_keeps_rejected_candidate_witness :
  @module_Check sampleExternals "example.com" "latest" ≠ None
  ∧ @specExtractVersion sampleExternals
      "go: example.com@latest: unknown revision latest" = zeroVersion
  ∧ @extractVersion sampleExternals
      "go: example.com@latest: unknown revision latest"
    = {| Path := "example.com"; Version := "latest" |}.
Proof.
  assert (@module_Check sampleExternals "example.com" "latest" ≠ None)
    as Hcheck by (vm_compute; discriminate).
  split; [exact Hcheck|].
  exact (proj2 (@extractVersion_keeps_rejected_candidate sampleExternals
                  Hcheck)).
Defined.

(** ** Locating the statement *)

Lemma find_first {A} (f : A → bool) pre x post :
  Forall (λ y, f y = false) pre → f x = true →
  List.find f (pre ++ x :: post) = Some x.
Proof.
  induction 1 as [|y pre Hy _ IH]; intros Hx; simpl.
  - by rewrite Hx.
  - rewrite Hy. by apply IH.
Qed.

Lemma find_absent {A} (f : A → bool) l :
  Forall (λ y, f y = false) l → List.find f l = None.
Proof. induction 1 as [|y l Hy _ IH]; simpl; [done|]. by rewrite Hy. Qed.

Lemma find_present {A} (f : A → bool) l x :
  List.find f l = Some x → f x = true ∧ x ∈ l.
Proof.
  intros [Hin Hx]%find_some. split; [done|]. by apply list_elem_of_In.
Qed.

Section Locate.
Context `{Externals}.

Lemma rangeFromPositions_Ok uri m s e l1 c1 l2 c2 rng :
  ToPosition m (Position_Byte s) = Ok (l1, c1) →
  ToPosition m (Position_Byte e) = Ok (l2, c2) →
  ColumnMapper_Range m
    (span_New uri (NewPoint l1 c1 (Position_Byte s))
                  (NewPoint l2 c2 (Position_Byte e))) = Ok rng →
  rangeFromPositions uri m s e = Ok rng.
Proof.
  intros Hs He Hr. unfold rangeFromPositions. rewrite Hs, He. exact Hr.
Qed.

Lemma requires_differ v l :
  Forall (λ r, Require_Mod r ≠ v) l →
  Forall (λ r, bool_decide (Require_Mod r = v) = false) l.
Proof.
  intros Hl. eapply Forall_impl; [exact Hl|].
  intros r Hr. by apply bool_decide_eq_false.
Qed.

Lemma excludes_differ v l :
  Forall (λ x, Exclude_Mod x ≠ v) l →
  Forall (λ x, bool_decide (Exclude_Mod x = v) = false) l.
Proof.
  intros Hl. eapply Forall_impl; [exact Hl|].
  intros r Hr. by apply bool_decide_eq_false.
Qed.

Lemma replaces_differ v l :
  Forall (λ r, Replace_New r ≠ v ∧ Replace_Old r ≠ v) l →
  Forall (λ r, negb (bool_decide (Replace_New r ≠ v)
                     && bool_decide (Replace_Old r ≠ v)) = false) l.
Proof.
  intros Hl. eapply Forall_impl; [exact Hl|]. intros r [Hn Ho]. simpl.
  by rewrite !bool_decide_eq_true_2.
Qed.

(** The search selects the statement of [FirstMatch]. *)
Lemma locate_FirstMatch fh m loadErr parsed v line :
  FirstMatch v parsed line →
  locate fh m loadErr parsed v = toDiagnostic fh m loadErr line.
Proof.
  unfold locate.
  intros [pre req post -> Hpre Hreq
         |pre ex post Hreqs -> Hpre Hex
         |pre rep post Hreqs Hexs -> Hpre Hrep].
  - rewrite (find_first _ pre req post); [done|by apply requires_differ|].
    by apply bool_decide_eq_true.
  - rewrite find_absent by by apply requires_differ.
    rewrite (find_first _ pre ex post); [done|by apply excludes_differ|].
    by apply bool_decide_eq_true.
  - rewrite find_absent by by apply requires_differ.
    rewrite find_absent by by apply excludes_differ.
    rewrite (find_first _ pre rep post); [done|by apply replaces_differ|].
    destruct Hrep as [Hrep|Hrep].
    + rewrite (bool_decide_eq_false_2 (Replace_New rep ≠ v)); [done|].
      by intros ?.
    + rewrite (bool_decide_eq_false_2 (Replace_Old rep ≠ v)); [|by intros ?].
      by rewrite andb_false_r.
Qed.

Lemma locate_NoMatch fh m loadErr parsed v :
  NoMatch v parsed →
  locate fh m loadErr parsed v = Err (noDiagnosticsFor loadErr).
Proof.
  intros (Hreqs & Hexs & Hreps). unfold locate.
  rewrite find_absent by by apply requires_differ.
  rewrite find_absent by by apply excludes_differ.
  by rewrite find_absent by by apply replaces_differ.
Qed.

(** A diagnostic returned by the search is built by [toDiagnostic]. *)
Lemma locate_Ok fh m loadErr parsed v d :
  locate fh m loadErr parsed v = Ok d →
  ∃ line, toDiagnostic fh m loadErr line = Ok d.
Proof.
  unfold locate. repeat case_match; try done; eauto.
Qed.

Lemma toDiagnostic_Ok fh m loadErr line d :
  toDiagnostic fh m loadErr line = Ok d →
  Diagnostic_Message d = loadErr
  ∧ Diagnostic_Severity d = SeverityError
  ∧ Diagnostic_Source d = ""
  ∧ rangeFromPositions (FileHandle_URI fh) m (Line_Start line) (Line_End line)
    = Ok (Diagnostic_Range d).
Proof.
  unfold toDiagnostic.
  destruct (rangeFromPositions _ _ _ _) as [rng|]; [|done].
  by intros [= <-].
Qed.

Lemma ExtractGoCommandError_parsed snapshot fh loadErr pmh parsed m :
  ParseModHandle snapshot fh = Ok pmh →
  Parse pmh = Ok (parsed, m) →
  ExtractGoCommandError snapshot fh loadErr
  = locate fh m loadErr parsed (extractVersion loadErr).
Proof.
  intros Hpmh Hparse. unfold ExtractGoCommandError.
  rewrite Hpmh. simpl. by rewrite Hparse.
Qed.

Lemma ExtractGoCommandError_Ok snapshot fh loadErr d :
  ExtractGoCommandError snapshot fh loadErr = Ok d →
  ∃ m line, toDiagnostic fh m loadErr line = Ok d.
Proof.
  unfold ExtractGoCommandError.
  destruct (ParseModHandle snapshot fh) as [pmh|]; [|done]. simpl.
  destruct (Parse pmh) as [[parsed m]|]; [|done]. simpl.
  intros [line Hline]%locate_Ok. eauto.
Qed.

End Locate.

(** C3: the statement is searched for among the [require] statements, then
    the [exclude] statements, then the [replace] statements (by new or old
    module), the first match in that order winning; when the position mapper
    converts the start and end byte offsets of that statement, the result is
    a diagnostic of severity [Error] whose message is the raw error text and
    whose range is the converted one.  A [require] that references the token
    wins over every [exclude] and [replace] that does. *)
Theorem ExtractGoCommandError_first_match `{Externals}
    snapshot fh loadErr pmh parsed m line l1 c1 l2 c2 rng :
  ParseModHandle snapshot fh = Ok pmh →
  Parse pmh = Ok (parsed, m) →
  FirstMatch (extractVersion loadErr) parsed line →
  ToPosition m (Position_Byte (Line_Start line)) = Ok (l1, c1) →
  ToPosition m (Position_Byte (Line_End line)) = Ok (l2, c2) →
  ColumnMapper_Range m
    (span_New (FileHandle_URI fh)
       (NewPoint l1 c1 (Position_Byte (Line_Start line)))
       (NewPoint l2 c2 (Position_Byte (Line_End line)))) = Ok rng →
  ExtractGoCommandError snapshot fh loadErr
  = Ok {| Diagnostic_Message := loadErr;
          Diagnostic_Range := rng;
          Diagnostic_Severity := SeverityError;
          Diagnostic_Source := "" |}.
Proof.
  intros Hpmh Hparse Hfirst Hs He Hr.
  rewrite (ExtractGoCommandError_parsed _ _ _ _ _ _ Hpmh Hparse).
  rewrite (locate_FirstMatch _ _ _ _ _ _ Hfirst). unfold toDiagnostic.
  by rewrite (rangeFromPositions_Ok _ _ _ _ _ _ _ _ _ Hs He Hr).
Qed.

(** In [sampleFile] a [require], an [exclude] and a [replace] reference
    [example.com] at [v1.2.2]; the diagnostic is anchored at the
    [require]. *)
Lemma ExtractGoCommandError_first_match_witness :
  @extractVersion sampleExternals sampleText = exampleCom
  ∧ @ExtractGoCommandError sampleExternals (sampleSnapshot [])
      (sampleHandle "file:///go.mod") sampleText
    = Ok {| Diagnostic_Message := sampleText;
            Diagnostic_Range := (42%Z, 68%Z) : @Range sampleExternals;
            Diagnostic_Severity := SeverityError;
            Diagnostic_Source := "" |}.
Proof.
  assert (@extractVersion sampleExternals sampleText = exampleCom) as Hv
    by (vm_compute; reflexivity).
  split; [exact Hv|].
  apply (@ExtractGoCommandError_first_match sampleExternals
           (sampleSnapshot []) (sampleHandle "file:///go.mod") sampleText
           {| Parse := Ok (sampleFile, sampleMapper) |} sampleFile
           sampleMapper (lineAt 42 68) 0%Z 42%Z 0%Z 68%Z);
    try reflexivity.
  rewrite Hv.
  apply (FirstMatch_require exampleCom sampleFile
           [{| Require_Mod := {| Path := "example.org"; Version := "v0.1.0" |};
               Require_Syntax := lineAt 20 41 |}]
           {| Require_Mod := exampleCom; Require_Syntax := lineAt 42 68 |} []);
    try reflexivity.
  constructor; [discriminate|constructor].
Defined.

(** A manifest that does not parse: the text has no token, and the call
    ends with the error of the parser, not with the "no diagnostics"
    error. *)
Lemma ExtractGoCommandError_parse_failure :
  regexp.firstSome (@validCandidate sampleExternals)
    (strings.Split "go: updates to go.mod needed" ":"%char) = None
  ∧ @ExtractGoCommandError sampleExternals brokenSnapshot
      (sampleHandle "file:///go.mod") "go: updates to go.mod needed"
    = Err (errorString "go.mod does not parse")
  ∧ @ExtractGoCommandError sampleExternals brokenSnapshot
      (sampleHandle "file:///go.mod") "go: updates to go.mod needed"
    ≠ Err (noDiagnosticsFor "go: updates to go.mod needed").
Proof.
  split_and!; [by vm_compute|by vm_compute|].
  vm_compute. discriminate.
Qed.

(** X19: how the call fails without converting a position.  An error of
    [ParseModHandle] or of [Parse] is returned as it is, for every error
    text.  Once the manifest is parsed, the call fails with the "no
    diagnostics" error, which carries the raw error text, whenever no
    [require], [exclude] or [replace] statement references the extracted
    token; that is the outcome for a text without [@], whose token is the
    zero value, when no statement names the empty module. *)
Theorem ExtractGoCommandError_failures `{Externals} snapshot fh loadErr :
  (∀ err, ParseModHandle snapshot fh = Err err →
          ExtractGoCommandError snapshot fh loadErr = Err err)
  ∧ (∀ pmh err, ParseModHandle snapshot fh = Ok pmh →
                Parse pmh = Err err →
                ExtractGoCommandError snapshot fh loadErr = Err err)
  ∧ (∀ pmh parsed m,
       ParseModHandle snapshot fh = Ok pmh →
       Parse pmh = Ok (parsed, m) →
       NoMatch (extractVersion loadErr) parsed →
       ExtractGoCommandError snapshot fh loadErr
       = Err (noDiagnosticsFor loadErr))
  ∧ (∀ pmh parsed m,
       ParseModHandle snapshot fh = Ok pmh →
       Parse pmh = Ok (parsed, m) →
       regexp.occurs "@"%char loadErr = false →
       NoMatch zeroVersion parsed →
       ExtractGoCommandError snapshot fh loadErr
       = Err (noDiagnosticsFor loadErr)).
Proof.
  split_and!.
  - intros err Hpmh. unfold ExtractGoCommandError. by rewrite Hpmh.
  - intros pmh err Hpmh Hparse. unfold ExtractGoCommandError.
    rewrite Hpmh. simpl. by rewrite Hparse.
  - intros pmh parsed m Hpmh Hparse.
    rewrite (ExtractGoCommandError_parsed _ _ _ _ _ _ Hpmh Hparse).
    apply locate_NoMatch.
  - intros pmh parsed m Hpmh Hparse Hnone Hzero.
    rewrite (ExtractGoCommandError_parsed _ _ _ _ _ _ Hpmh Hparse).
    rewrite (extractVersion_no_at _ Hnone). by apply locate_NoMatch.
Qed.

Lemma ExtractGoCommandError_failures_witness :
  @ExtractGoCommandError sampleExternals (sampleSnapshot [])
    (sampleHandle "file:///go.mod") "go: updates to go.mod needed"
  = Err (errorString "no diagnostics for go: updates to go.mod needed")
  ∧ @ExtractGoCommandError sampleExternals brokenSnapshot
      (sampleHandle "file:///go.mod") "go: example.com@v1.2.2: not found"
    = Err (errorString "go.mod does not parse").
Proof.
  split.
  - apply (proj2 (proj2 (proj2
             (@ExtractGoCommandError_failures sampleExternals
                (sampleSnapshot []) (sampleHandle "file:///go.mod")
                "go: updates to go.mod needed")))
             {| Parse := Ok (sampleFile, sampleMapper) |} sampleFile
             sampleMapper eq_refl eq_refl).
    + reflexivity.
    + unfold NoMatch. simpl.
      split_and!; repeat (constructor; [try split; discriminate|]);
        constructor.
  - apply (proj1 (@ExtractGoCommandError_failures sampleExternals
                    brokenSnapshot (sampleHandle "file:///go.mod")
                    "go: example.com@v1.2.2: not found")).
    reflexivity.
Defined.

(** Where a rejected candidate leads: the text has no valid token, yet the
    candidate left in [v] equals the old module of a [replace] statement of
    [sampleFile], and a diagnostic is anchored there. *)
Lemma ExtractGoCommandError_rejected_candidate_anchors :
  regexp.firstSome (@validCandidate sampleExternals)
    (strings.Split "go: example.com/foo@: invalid version" ":"%char) = None
  ∧ @ExtractGoCommandError sampleExternals (sampleSnapshot [])
      (sampleHandle "file:///go.mod") "go: example.com/foo@: invalid version"
    = Ok {| Diagnostic_Message := "go: example.com/foo@: invalid version";
            Diagnostic_Range := (136%Z, 170%Z) : @Range sampleExternals;
            Diagnostic_Severity := SeverityError;
            Diagnostic_Source := "" |}.
Proof. split; by vm_compute. Qed.

(** C4, at an input where the code departs from it.  In the text
    [go: example.com/foo@: invalid version] no segment yields a candidate
    that passes [module.Check] (which rejects the empty version), so the
    text has no valid token.  The loop leaves the rejected candidate in
    [v]; when a statement of the parsed manifest references
    [example.com/foo] without a version, as the old module of a [replace]
    by a directory does, the call returns a diagnostic anchored there
    instead of the "no diagnostics" error. *)
Theorem ExtractGoCommandError_stale_candidate `{Externals}
    snapshot fh pmh parsed m line l1 c1 l2 c2 rng :
  module_Check "example.com/foo" "" ≠ None →
  ParseModHandle snapshot fh = Ok pmh →
  Parse pmh = Ok (parsed, m) →
  FirstMatch {| Path := "example.com/foo"; Version := "" |} parsed line →
  ToPosition m (Position_Byte (Line_Start line)) = Ok (l1, c1) →
  ToPosition m (Position_Byte (Line_End line)) = Ok (l2, c2) →
  ColumnMapper_Range m
    (span_New (FileHandle_URI fh)
       (NewPoint l1 c1 (Position_Byte (Line_Start line)))
       (NewPoint l2 c2 (Position_Byte (Line_End line)))) = Ok rng →
  regexp.firstSome validCandidate
    (strings.Split "go: example.com/foo@: invalid version" ":"%char) = None
  ∧ specExtractVersion "go: example.com/foo@: invalid version" = zeroVersion
  ∧ ExtractGoCommandError snapshot fh "go: example.com/foo@: invalid version"
    = Ok {| Diagnostic_Message := "go: example.com/foo@: invalid version";
            Diagnostic_Range := rng;
            Diagnostic_Severity := SeverityError;
            Diagnostic_Source := "" |}.
Proof.
  intros Hcheck Hpmh Hparse Hfirst Hs He Hr.
  assert (regexp.firstSome validCandidate
            (strings.Split "go: example.com/foo@: invalid version" ":"%char)
          = None) as Hnone.
  { eval_text. cbn [regexp.firstSome]. unfold validCandidate. eval_text.
    by destruct (module_Check "example.com/foo" ""). }
  assert (extractVersion "go: example.com/foo@: invalid version"
          = {| Path := "example.com/foo"; Version := "" |}) as Hv.
  { unfold extractVersion. rewrite (scanSegments_none_valid _ _ Hnone).
    unfold lastCandidate. eval_text. cbn [fold_left]. by eval_text. }
  split_and!; [done| |].
  - unfold specExtractVersion. eval_text. cbn [regexp.firstSome].
    unfold specCandidate. eval_text.
    by destruct (module_Check "example.com/foo" "").
  - rewrite (ExtractGoCommandError_parsed _ _ _ _ _ _ Hpmh Hparse), Hv.
    rewrite (locate_FirstMatch _ _ _ _ _ _ Hfirst). unfold toDiagnostic.
    by rewrite (rangeFromPositions_Ok _ _ _ _ _ _ _ _ _ Hs He Hr).
Qed.

(** [sampleFile] replaces [example.com/foo] by a directory. *)
Lemma ExtractGoCommandError_stale_candidate_witness :
  @module_Check sampleExternals "example.com/foo" "" ≠ None
  ∧ @specExtractVersion sampleExternals
      "go: example.com/foo@: invalid version" = zeroVersion
  ∧ @ExtractGoCommandError sampleExternals (sampleSnapshot [])
      (sampleHandle "file:///go.mod") "go: example.com/foo@: invalid version"
    = Ok {| Diagnostic_Message := "go: example.com/foo@: invalid version";
            Diagnostic_Range := (136%Z, 170%Z) : @Range sampleExternals;
            Diagnostic_Severity := SeverityError;
            Diagnostic_Source := "" |}.
Proof.
  assert (@module_Check sampleExternals "example.com/foo" "" ≠ None)
    as Hcheck by (vm_compute; discriminate).
  split; [exact Hcheck|].
  refine (proj2 (@ExtractGoCommandError_stale_candidate sampleExternals
                   (sampleSnapshot []) (sampleHandle "file:///go.mod")
                   {| Parse := Ok (sampleFile, sampleMapper) |} sampleFile
                   sampleMapper (lineAt 136 170) 0%Z 136%Z 0%Z 170%Z
                   (136%Z, 170%Z) Hcheck eq_refl eq_refl _
                   eq_refl eq_refl eq_refl)).
  apply (FirstMatch_replace _ sampleFile
           [{| Replace_Old := exampleCom;
               Replace_New := {| Path := "../fork"; Version := "" |};
               Replace_Syntax := lineAt 98 135 |}]
           {| Replace_Old := {| Path := "example.com/foo"; Version := "" |};
              Replace_New := {| Path := "../foo"; Version := "" |};
              Replace_Syntax := lineAt 136 170 |} []).
  - simpl. repeat (constructor; [discriminate|]). constructor.
  - simpl. repeat (constructor; [discriminate|]). constructor.
  - reflexivity.
  - constructor; [split; discriminate|constructor].
  - by right.
Defined.

(** C10: a diagnostic returned by [ExtractGoCommandError] has the empty
    [Source]; a client diagnostic with that source is not the same
    diagnostic as any analysis error with a category. *)
Theorem ExtractGoCommandError_Source_empty `{Externals}
    snapshot fh loadErr d :
  ExtractGoCommandError snapshot fh loadErr = Ok d →
  Diagnostic_Source d = ""
  ∧ ∀ (p : protocol_Diagnostic) (e : Error),
      protocol_Source p = Diagnostic_Source d →
      Error_Category e ≠ "" →
      sameDiagnostic p e = false.
Proof.
  intros (m & line & Hd)%ExtractGoCommandError_Ok.
  apply toDiagnostic_Ok in Hd as (_ & _ & Hsource & _).
  split; [done|]. intros p e Hp He. unfold sameDiagnostic.
  rewrite (bool_decide_eq_false_2 (protocol_Source p = Error_Category e)).
  - by rewrite andb_false_r.
  - congruence.
Qed.

Lemma ExtractGoCommandError_Source_empty_witness :
  @sameDiagnostic sampleExternals
    {| protocol_Range := (42%Z, 68%Z) : @Range sampleExternals;
       protocol_Severity := SeverityError;
       protocol_Source := "";
       protocol_Message := sampleText |}
    {| Error_Message := sampleText;
       Error_Range := (42%Z, 68%Z) : @Range sampleExternals;
       Error_Category := "go mod tidy";
       Error_URI := "file:///go.mod";
       Error_SuggestedFixes := [] |}
  = false.
Proof.
  refine (proj2 (@ExtractGoCommandError_Source_empty sampleExternals
                   (sampleSnapshot []) (sampleHandle "file:///go.mod")
                   sampleText
                   {| Diagnostic_Message := sampleText;
                      Diagnostic_Range := (42%Z, 68%Z) : @Range sampleExternals;
                      Diagnostic_Severity := SeverityError;
                      Diagnostic_Source := "" |} _) _ _ _ _).
  - vm_compute. reflexivity.
  - reflexivity.
  - discriminate.
Defined.

(** ** [Diagnostics] *)

Section DiagnosticsProperties.
Context `{Externals}.

Lemma diagnosticOf_severity e :
  (Diagnostic_Severity (diagnosticOf e) = SeverityError
   ↔ Error_Category e = "syntax")
  ∧ (Diagnostic_Severity (diagnosticOf e) = SeverityWarning
     ↔ Error_Category e ≠ "syntax").
Proof. unfold diagnosticOf; simpl. case_decide; split; split; done. Qed.

(** What a successful run of the loop leaves in the map. *)
Lemma reportLoop_Ok snapshot errs reports m :
  reportLoop snapshot errs reports = Ok m →
  Forall (λ e, is_Some (identityOf snapshot e)) errs
  ∧ dom m = dom reports ∪ list_to_set (omap (identityOf snapshot) errs)
  ∧ ∀ k, default [] (m !! k)
         = default [] (reports !! k)
           ++ (diagnosticOf <$>
               filter (λ e, identityOf snapshot e = Some k) errs).
Proof.
  revert reports. induction errs as [|e rest IH]; intros reports; simpl.
  - intros [= <-]. split_and!; [done|set_solver|].
    intros k. by rewrite app_nil_r.
  - unfold identityOf at 1 2.
    destruct (GetFile snapshot (Error_URI e)) as [fh|] eqn:Hfh; [|done].
    simpl. intros (Hall & Hdom & Hlookup)%IH. split_and!.
    + constructor; [|done]. unfold identityOf. by rewrite Hfh.
    + rewrite Hdom, dom_insert_L. set_solver.
    + intros k. rewrite Hlookup, filter_cons.
      assert (identityOf snapshot e = Some (Identity fh)) as Hid
        by (unfold identityOf; by rewrite Hfh).
      destruct (decide (Identity fh = k)) as [<-|Hne].
      * rewrite lookup_insert_eq, decide_True by done. simpl.
        by rewrite <-app_assoc.
      * rewrite lookup_insert_ne, decide_False by congruence. done.
Qed.

(** The loop succeeds when the file of every error resolves. *)
Lemma reportLoop_total snapshot errs reports :
  Forall (λ e, is_Some (identityOf snapshot e)) errs →
  ∃ m, reportLoop snapshot errs reports = Ok m.
Proof.
  intros Hall. revert reports.
  induction Hall as [|e rest [k He] _ IH]; intros reports; simpl; [eauto|].
  unfold identityOf in He.
  destruct (GetFile snapshot (Error_URI e)) as [fh|]; [|done]. simpl.
  apply IH.
Qed.

Lemma Diagnostics_main snapshot fh mth errs :
  ModFile snapshot ≠ "" →
  GetFile snapshot (ModFile snapshot) = Ok fh →
  ModTidyHandle snapshot = Ok mth →
  Tidy mth = Ok errs →
  Diagnostics snapshot = reportLoop snapshot errs {[ Identity fh := [] ]}.
Proof.
  intros Huri Hfh Hmth Herrs. unfold Diagnostics.
  rewrite decide_False by done. rewrite Hfh. simpl. rewrite Hmth.
  by rewrite Herrs.
Qed.

(** On a configured and supported manifest the call returns a map when the
    file of every analysis error resolves. *)
Lemma Diagnostics_total snapshot fh mth errs :
  ModFile snapshot ≠ "" →
  GetFile snapshot (ModFile snapshot) = Ok fh →
  ModTidyHandle snapshot = Ok mth →
  Tidy mth = Ok errs →
  Forall (λ e, is_Some (identityOf snapshot e)) errs →
  ∃ m, Diagnostics snapshot = Ok m.
Proof.
  intros Huri Hfh Hmth Herrs Hall.
  rewrite (Diagnostics_main _ _ _ _ Huri Hfh Hmth Herrs).
  by apply reportLoop_total.
Qed.

Lemma Diagnostics_lookup snapshot fh mth errs m k :
  ModFile snapshot ≠ "" →
  GetFile snapshot (ModFile snapshot) = Ok fh →
  ModTidyHandle snapshot = Ok mth →
  Tidy mth = Ok errs →
  Diagnostics snapshot = Ok m →
  k ∈ dom m →
  m !! k = Some (diagnosticOf <$>
                 filter (λ e, identityOf snapshot e = Some k) errs).
Proof.
  intros Huri Hfh Hmth Herrs.
  rewrite (Diagnostics_main _ _ _ _ Huri Hfh Hmth Herrs).
  intros (_ & _ & Hlookup)%reportLoop_Ok [ds Hds]%elem_of_dom.
  specialize (Hlookup k). rewrite Hds in Hlookup. simpl in Hlookup.
  rewrite Hds, Hlookup. f_equal.
  destruct (decide (Identity fh = k)) as [<-|Hne].
  - by rewrite lookup_singleton_eq.
  - by rewrite lookup_singleton_ne.
Qed.

End DiagnosticsProperties.

(** C5: on a configured and supported manifest, the map of a successful call
    has the manifest's own file identity as a key (with the empty list when
    the analysis reports nothing), its keys are that identity and the
    identities of the files of the analysis errors, no key occurs twice, and
    the list of a file holds the diagnostics of the errors against that file
    in the order of the analysis. *)
Theorem Diagnostics_grouping `{Externals} snapshot fh mth errs m :
  ModFile snapshot ≠ "" →
  GetFile snapshot (ModFile snapshot) = Ok fh →
  ModTidyHandle snapshot = Ok mth →
  Tidy mth = Ok errs →
  Diagnostics snapshot = Ok m →
  is_Some (m !! Identity fh)
  ∧ (errs = [] → m = {[ Identity fh := [] ]})
  ∧ Forall (λ e, is_Some (identityOf snapshot e)) errs
  ∧ dom m = {[ Identity fh ]} ∪ list_to_set (omap (identityOf snapshot) errs)
  ∧ NoDup (map_to_list m).*1
  ∧ ∀ k, k ∈ dom m →
         m !! k = Some (diagnosticOf <$>
                        filter (λ e, identityOf snapshot e = Some k) errs).
Proof.
  intros Huri Hfh Hmth Herrs Hm.
  pose proof Hm as Hloop.
  rewrite (Diagnostics_main _ _ _ _ Huri Hfh Hmth Herrs) in Hloop.
  pose proof (reportLoop_Ok _ _ _ _ Hloop) as (Hall & Hdom & _).
  rewrite dom_singleton_L in Hdom.
  split_and!.
  - apply elem_of_dom. rewrite Hdom. set_solver.
  - intros ->. simpl in Hloop. by injection Hloop as <-.
  - done.
  - done.
  - apply NoDup_fst_map_to_list.
  - intros k Hk. by eapply Diagnostics_lookup.
Qed.

Lemma Diagnostics_grouping_witness :
  let m : gmap string (list (@Diagnostic sampleExternals)) :=
    <["file:///main.go" := [diagnosticOf missingError]]>
      {[ "file:///go.mod" :=
           [diagnosticOf syntaxError; diagnosticOf unusedError] ]} in
  @Diagnostics sampleExternals (sampleSnapshot sampleErrors) = Ok m
  ∧ dom m = {[ "file:///go.mod" ]}
            ∪ list_to_set
                (omap (@identityOf sampleExternals
                         (sampleSnapshot sampleErrors)) sampleErrors).
Proof.
  intros m.
  assert (@Diagnostics sampleExternals (sampleSnapshot sampleErrors) = Ok m)
    as Hm by reflexivity.
  split; [exact Hm|].
  refine (proj1 (proj2 (proj2 (proj2
            (@Diagnostics_grouping sampleExternals
               (sampleSnapshot sampleErrors) (sampleHandle "file:///go.mod")
               {| Tidy := Ok sampleErrors |} sampleErrors m _ _ _ _ Hm))))).
  - discriminate.
  - reflexivity.
  - reflexivity.
  - reflexivity.
Defined.

(** C8: every diagnostic of the returned map is the conversion of an analysis
    error against that file: its source is the category of the error, its
    severity is [Error] exactly when the category is [syntax] and [Warning]
    exactly when it is not; and every analysis error is converted. *)
Theorem Diagnostics_severity `{Externals} snapshot fh mth errs m :
  ModFile snapshot ≠ "" →
  GetFile snapshot (ModFile snapshot) = Ok fh →
  ModTidyHandle snapshot = Ok mth →
  Tidy mth = Ok errs →
  Diagnostics snapshot = Ok m →
  (∀ k ds d, m !! k = Some ds → d ∈ ds →
     ∃ e, e ∈ errs
          ∧ identityOf snapshot e = Some k
          ∧ Diagnostic_Message d = Error_Message e
          ∧ Diagnostic_Range d = Error_Range e
          ∧ Diagnostic_Source d = Error_Category e
          ∧ (Diagnostic_Severity d = SeverityError
             ↔ Error_Category e = "syntax")
          ∧ (Diagnostic_Severity d = SeverityWarning
             ↔ Error_Category e ≠ "syntax"))
  ∧ (∀ e, e ∈ errs →
       ∃ k ds, identityOf snapshot e = Some k
               ∧ m !! k = Some ds
               ∧ diagnosticOf e ∈ ds).
Proof.
  intros Huri Hfh Hmth Herrs Hm.
  pose proof Hm as Hloop.
  rewrite (Diagnostics_main _ _ _ _ Huri Hfh Hmth Herrs) in Hloop.
  pose proof (reportLoop_Ok _ _ _ _ Hloop) as (Hall & Hdom & _).
  split.
  - intros k ds d Hds Hd.
    rewrite (Diagnostics_lookup _ _ _ _ _ k Huri Hfh Hmth Herrs Hm) in Hds
      by (apply elem_of_dom; eauto).
    injection Hds as <-.
    apply list_elem_of_fmap in Hd as (e & -> & [He Hin]%list_elem_of_filter).
    exists e. pose proof (diagnosticOf_severity e) as [? ?].
    by split_and!.
  - intros e He.
    rewrite Forall_forall in Hall. destruct (Hall e He) as [k Hk].
    assert (k ∈ dom m) as Hin.
    { rewrite Hdom. apply elem_of_union_r, elem_of_list_to_set.
      apply list_elem_of_omap. eauto. }
    exists k, (diagnosticOf <$>
               filter (λ e, identityOf snapshot e = Some k) errs).
    split_and!; [done|by eapply Diagnostics_lookup|].
    apply list_elem_of_fmap. exists e. split; [done|].
    by apply list_elem_of_filter.
Qed.

Lemma Diagnostics_severity_witness :
  Diagnostic_Severity (@diagnosticOf sampleExternals syntaxError)
  = SeverityError
  ∧ ∃ k ds,
      @Diagnostics sampleExternals (sampleSnapshot sampleErrors)
      = Ok (<["file:///main.go" := [diagnosticOf missingError]]>
              {[ "file:///go.mod" :=
                   [diagnosticOf syntaxError; diagnosticOf unusedError] ]})
      ∧ @identityOf sampleExternals (sampleSnapshot sampleErrors) unusedError
        = Some k
      ∧ (<["file:///main.go" := [diagnosticOf missingError]]>
           {[ "file:///go.mod" :=
                [diagnosticOf syntaxError; diagnosticOf unusedError] ]}
         : gmap string (list (@Diagnostic sampleExternals))) !! k = Some ds
      ∧ @diagnosticOf sampleExternals unusedError ∈ ds.
Proof.
  split; [reflexivity|].
  assert (@Diagnostics sampleExternals (sampleSnapshot sampleErrors)
          = Ok (<["file:///main.go" := [diagnosticOf missingError]]>
                  {[ "file:///go.mod" :=
                       [diagnosticOf syntaxError; diagnosticOf unusedError] ]}))
    as Hm by reflexivity.
  destruct (proj2 (@Diagnostics_severity sampleExternals
                     (sampleSnapshot sampleErrors)
                     (sampleHandle "file:///go.mod")
                     {| Tidy := Ok sampleErrors |} sampleErrors _
                     ltac:(discriminate) eq_refl eq_refl eq_refl Hm)
                  unusedError)
    as (k & ds & Hk & Hds & Hin).
  { unfold sampleErrors. apply list_elem_of_In. simpl. tauto. }
  exists k, ds. by split_and!.
Defined.

(** ** Early exits and propagated failures *)

(** C7 fails for [SuggestedFixes], which never looks at the manifest of the
    view: without a manifest it returns the actions of the analysis, or the
    error of the analysis. *)
Lemma SuggestedFixes_without_manifest :
  ModFile (withoutManifest (sampleSnapshot [unusedError])) = ""
  ∧ @SuggestedFixes sampleExternals
      (withoutManifest (sampleSnapshot [unusedError])) [unusedDiag]
    = Ok [{| CodeAction_Title := "Remove dependency: example.org";
             CodeAction_Kind := QuickFix;
             CodeAction_Diagnostics := [unusedDiag];
             CodeAction_Edit :=
               {| DocumentChanges :=
                    [documentEdit (sampleHandle "file:///go.mod")
                       ["delete 20-41"]] |} |}]
  ∧ ModFile brokenSnapshot = ""
  ∧ @SuggestedFixes sampleExternals brokenSnapshot [unusedDiag]
    = Err (errorString "go command failed").
Proof. split_and!; reflexivity. Qed.

(** C7, amended: [Diagnostics] returns the empty map without error when no
    manifest is configured, and, once the handle of the manifest is
    obtained, when [ModTidyHandle] reports [ErrTmpModfileUnsupported];
    [SuggestedFixes] returns no action and no error when [ModTidyHandle]
    reports [ErrTmpModfileUnsupported].  Every other failure to obtain the
    file handle or the analysis result is returned unchanged. *)
Theorem early_exits `{Externals} snapshot diags :
  (ModFile snapshot = "" → Diagnostics snapshot = Ok ∅)
  ∧ (∀ fh, ModFile snapshot ≠ "" →
           GetFile snapshot (ModFile snapshot) = Ok fh →
           ModTidyHandle snapshot = Err ErrTmpModfileUnsupported →
           Diagnostics snapshot = Ok ∅)
  ∧ (∀ err, ModFile snapshot ≠ "" →
            GetFile snapshot (ModFile snapshot) = Err err →
            Diagnostics snapshot = Err err)
  ∧ (∀ fh err, ModFile snapshot ≠ "" →
               GetFile snapshot (ModFile snapshot) = Ok fh →
               ModTidyHandle snapshot = Err err →
               err ≠ ErrTmpModfileUnsupported →
               Diagnostics snapshot = Err err)
  ∧ (∀ fh mth err, ModFile snapshot ≠ "" →
                   GetFile snapshot (ModFile snapshot) = Ok fh →
                   ModTidyHandle snapshot = Ok mth →
                   Tidy mth = Err err →
                   Diagnostics snapshot = Err err)
  ∧ (ModTidyHandle snapshot = Err ErrTmpModfileUnsupported →
     SuggestedFixes snapshot diags = Ok [])
  ∧ (∀ err, ModTidyHandle snapshot = Err err →
            err ≠ ErrTmpModfileUnsupported →
            SuggestedFixes snapshot diags = Err err)
  ∧ (∀ mth err, ModTidyHandle snapshot = Ok mth →
                Tidy mth = Err err →
                SuggestedFixes snapshot diags = Err err).
Proof.
  unfold Diagnostics, SuggestedFixes. split_and!.
  - intros ->. by rewrite decide_True.
  - intros fh Huri -> ->. by rewrite decide_False.
  - intros err Huri ->. by rewrite decide_False.
  - intros fh err Huri -> -> Herr. rewrite decide_False by done.
    by destruct err.
  - intros fh mth err Huri -> -> Herr. rewrite decide_False by done.
    simpl. by rewrite Herr.
  - by intros ->.
  - intros err -> Herr. by destruct err.
  - intros mth err -> Herr. by rewrite Herr.
Qed.

Lemma early_exits_witness :
  @Diagnostics sampleExternals brokenSnapshot = Ok ∅
  ∧ @SuggestedFixes sampleExternals brokenSnapshot [unusedDiag]
    = Err (errorString "go command failed").
Proof.
  pose proof (@early_exits sampleExternals brokenSnapshot [unusedDiag])
    as (Hnone & _ & _ & _ & _ & _ & Herr & _).
  split.
  - apply Hnone. reflexivity.
  - apply Herr; [reflexivity|discriminate].
Defined.

(** ** [SuggestedFixes] *)

Section SuggestedFixesProperties.
Context `{Externals}.

Lemma sameDiagnostic_true d e :
  sameDiagnostic d e = true
  ↔ protocol_Message d = Error_Message e
    ∧ CompareRange (protocol_Range d) (Error_Range e) = 0%Z
    ∧ protocol_Source d = Error_Category e.
Proof.
  unfold sameDiagnostic.
  rewrite !andb_true_iff, !bool_decide_eq_true, Z.eqb_eq. tauto.
Qed.

(** *** The index by message *)

Lemma indexErrors_lookup errs errorsMap msg :
  default [] (indexErrors errs errorsMap !! msg)
  = default [] (errorsMap !! msg)
    ++ filter (λ e, Error_Message e = msg) errs.
Proof.
  revert errorsMap. induction errs as [|e rest IH]; intros errorsMap; simpl.
  - by rewrite app_nil_r.
  - rewrite IH, filter_cons.
    set (errorsMap1 := match errorsMap !! Error_Message e with
                       | None => <[Error_Message e := []]> errorsMap
                       | Some _ => errorsMap
                       end).
    assert (∀ k, default [] (errorsMap1 !! k) = default [] (errorsMap !! k))
      as Hsame.
    { intros k. unfold errorsMap1.
      destruct (errorsMap !! Error_Message e) eqn:Hk; [done|].
      destruct (decide (Error_Message e = k)) as [<-|Hne].
      - by rewrite lookup_insert_eq, Hk.
      - by rewrite lookup_insert_ne. }
    destruct (decide (Error_Message e = msg)) as [<-|Hne].
    + rewrite lookup_insert_eq. simpl. by rewrite Hsame, <-app_assoc.
    + by rewrite lookup_insert_ne, Hsame.
Qed.

(** The candidates looked up for a diagnostic are the analysis errors with
    its message, in analysis order. *)
Lemma indexErrors_candidates errs msg :
  default [] (indexErrors errs ∅ !! msg)
  = filter (λ e, Error_Message e = msg) errs.
Proof. by rewrite indexErrors_lookup, lookup_empty. Qed.

(** *** The loops, flattened *)

Lemma triplesLoop_app snapshot ts1 ts2 st :
  triplesLoop snapshot (ts1 ++ ts2) st
  = st' ← triplesLoop snapshot ts1 st; triplesLoop snapshot ts2 st'.
Proof.
  revert st. induction ts1 as [|t rest IH]; intros st; simpl; [done|].
  destruct (editsLoop snapshot _ []) as [changes|]; simpl; [|done].
  apply IH.
Qed.

Lemma fixesLoop_triples snapshot d e fixes st :
  fixesLoop snapshot d fixes st
  = triplesLoop snapshot ((λ x, (d, e, x)) <$> fixes) st.
Proof.
  revert st. induction fixes as [|x rest IH]; intros st; simpl; [done|].
  destruct (editsLoop snapshot _ []) as [changes|]; simpl; [|done].
  apply IH.
Qed.

Lemma errorsLoop_triples snapshot d errs st :
  errorsLoop snapshot d errs st
  = triplesLoop snapshot
      (filter (λ e, sameDiagnostic d e = true) errs
         ≫= λ e, (λ x, (d, e, x)) <$> Error_SuggestedFixes e) st.
Proof.
  revert st. induction errs as [|e rest IH]; intros st; simpl; [done|].
  rewrite filter_cons.
  destruct (decide (sameDiagnostic d e = true)) as [Hsame|Hsame].
  - rewrite Hsame. cbn [negb]. rewrite bind_cons, triplesLoop_app.
    rewrite <-(fixesLoop_triples snapshot d e).
    destruct (fixesLoop snapshot d _ st) as [st'|]; simpl; [|done].
    apply IH.
  - apply not_true_is_false in Hsame. rewrite Hsame. cbn [negb]. apply IH.
Qed.

(** Candidates with another message do not pass [sameDiagnostic]. *)
Lemma filter_same_candidates d (errs : list Error) :
  filter (λ e, sameDiagnostic d e = true)
    (filter (λ e, Error_Message e = protocol_Message d) errs)
  = filter (λ e, sameDiagnostic d e = true) errs.
Proof.
  induction errs as [|e rest IH]; [done|].
  rewrite !filter_cons.
  destruct (decide (Error_Message e = protocol_Message d)) as [Hmsg|Hmsg].
  - rewrite filter_cons, IH. done.
  - rewrite IH, decide_False; [done|].
    intros (Heq & _)%sameDiagnostic_true. congruence.
Qed.

Lemma join_fixes_eq (errs : list Error) d :
  (filter (λ e, sameDiagnostic d e = true) errs
     ≫= λ e, (λ x, (d, e, x)) <$> Error_SuggestedFixes e)
  = (filter (λ e, sameDiagnostic d e = true) errs
       ≫= λ e, Error_SuggestedFixes e ≫= λ x, [(d, e, x)]).
Proof.
  apply list_bind_ext; [|done]. intros e.
  induction (Error_SuggestedFixes e) as [|x l IH]; [done|].
  by rewrite fmap_cons, bind_cons, IH.
Qed.

Lemma diagsLoop_triples snapshot errs diags st :
  diagsLoop snapshot (indexErrors errs ∅) diags st
  = triplesLoop snapshot (join errs diags) st.
Proof.
  unfold join.
  revert st. induction diags as [|d rest IH]; intros st; [done|].
  cbn [diagsLoop].
  rewrite bind_cons, triplesLoop_app, indexErrors_candidates.
  rewrite errorsLoop_triples, filter_same_candidates, join_fixes_eq.
  destruct (triplesLoop snapshot _ st) as [st'|]; simpl; [|done].
  apply IH.
Qed.

Lemma SuggestedFixes_main snapshot mth errs diags :
  ModTidyHandle snapshot = Ok mth →
  Tidy mth = Ok errs →
  SuggestedFixes snapshot diags
  = st ← triplesLoop snapshot (join errs diags) (0, []); Ok st.2.
Proof.
  intros Hmth Herrs. unfold SuggestedFixes. rewrite Hmth, Herrs. simpl.
  by rewrite diagsLoop_triples.
Qed.

(** *** Membership in the join *)

Lemma elem_of_join errs diags d e x :
  (d, e, x) ∈ join errs diags
  ↔ d ∈ diags ∧ e ∈ errs ∧ x ∈ Error_SuggestedFixes e
    ∧ sameDiagnostic d e = true.
Proof.
  unfold join. rewrite list_elem_of_bind. split.
  - intros (d' & (e' & (x' & Hx & Hx')%list_elem_of_bind
                     & [He He']%list_elem_of_filter)%list_elem_of_bind & Hd).
    apply list_elem_of_singleton in Hx as [= -> -> ->]. done.
  - intros (Hd & He & Hx & Hsame). exists d. split; [|done].
    apply list_elem_of_bind. exists e. split; [|by apply list_elem_of_filter].
    apply list_elem_of_bind. exists x. split; [|done].
    by apply list_elem_of_singleton.
Qed.

(** A diagnostic that equals no analysis error adds nothing to the join. *)
Lemma join_unmatched errs pre d post :
  (∀ e, e ∈ errs → sameDiagnostic d e = false) →
  join errs (pre ++ d :: post) = join errs (pre ++ post).
Proof.
  intros Hnone. unfold join. rewrite !bind_app, bind_cons.
  assert (filter (λ e, sameDiagnostic d e = true) errs = []) as ->; [|done].
  induction errs as [|e rest IH]; [done|].
  rewrite filter_cons_False.
  - apply IH. intros e' He'. apply Hnone. by right.
  - rewrite Hnone; [done|by left].
Qed.

End SuggestedFixesProperties.

Section ActionProperties.
Context `{Externals}.

Lemma Forall2_elem_of_l {A B} (P : A → B → Prop) l k x :
  Forall2 P l k → x ∈ l → ∃ y, y ∈ k ∧ P x y.
Proof.
  induction 1 as [|x' y' l k Hxy _ IH]; intros Hx.
  - by apply elem_of_nil in Hx.
  - apply elem_of_cons in Hx as [->|Hx].
    + exists y'. split; [by left|done].
    + destruct (IH Hx) as (y & Hy & Hxy'). exists y. split; [by right|done].
Qed.

Lemma Forall2_elem_of_r {A B} (P : A → B → Prop) l k y :
  Forall2 P l k → y ∈ k → ∃ x, x ∈ l ∧ P x y.
Proof.
  induction 1 as [|x' y' l k Hxy _ IH]; intros Hy.
  - by apply elem_of_nil in Hy.
  - apply elem_of_cons in Hy as [->|Hy].
    + exists x'. split; [by left|done].
    + destruct (IH Hy) as (x & Hx & Hxy'). exists x. split; [by right|done].
Qed.

(** *** The edits of one fix *)

Lemma editsLoop_Ok snapshot entries acc changes :
  editsLoop snapshot entries acc = Ok changes →
  ∃ new, changes = acc ++ new
         ∧ Forall2 (λ entry change,
                      ∃ fh, GetFile snapshot entry.1 = Ok fh
                            ∧ change = documentEdit fh entry.2)
                   entries new.
Proof.
  revert acc. induction entries as [|[uri edits] rest IH]; intros acc; simpl.
  - intros [= <-]. exists []. rewrite app_nil_r. split; [done|constructor].
  - destruct (GetFile snapshot uri) as [fh|] eqn:Hfh; [|done]. simpl.
    intros (new & -> & Hnew)%IH. exists (documentEdit fh edits :: new).
    split; [by rewrite <-app_assoc|]. constructor; [|done].
    exists fh. by split.
Qed.

Lemma editsLoop_Err snapshot entries acc err :
  editsLoop snapshot entries acc = Err err →
  ∃ entry, entry ∈ entries ∧ GetFile snapshot entry.1 = Err err.
Proof.
  revert acc. induction entries as [|[uri edits] rest IH]; intros acc; simpl;
    [done|].
  destruct (GetFile snapshot uri) as [fh|err'] eqn:Hfh; simpl.
  - intros (entry & Hin & Hentry)%IH. exists entry. split; [by right|done].
  - intros [= <-]. exists (uri, edits). split; [by left|done].
Qed.

Lemma editsLoop_total snapshot entries acc :
  Forall (λ entry, isOk (GetFile snapshot entry.1) = true) entries →
  ∃ changes, editsLoop snapshot entries acc = Ok changes.
Proof.
  intros Hall. revert acc.
  induction Hall as [|[uri edits] rest Hentry _ IH]; intros acc; simpl;
    [eauto|].
  simpl in Hentry. destruct (GetFile snapshot uri) as [fh|]; [|done].
  simpl. apply IH.
Qed.

(** Whatever the order of the walk, its entries are those of the map. *)
Lemma elem_of_rangeOrder n (m : gmap URI (list TextEdit)) uri edits :
  (uri, edits) ∈ rangeOrder n m ↔ m !! uri = Some edits.
Proof. by rewrite (rangeOrder_perm n m), elem_of_map_to_list. Qed.

(** *** The flattened loop *)

Lemma triplesLoop_Ok snapshot ts st st' :
  triplesLoop snapshot ts st = Ok st' →
  ∃ acts, st'.2 = st.2 ++ acts ∧ Forall2 (DerivedFrom snapshot) ts acts.
Proof.
  revert st. induction ts as [|t rest IH]; intros st; simpl.
  - intros [= <-]. exists []. rewrite app_nil_r. split; [done|constructor].
  - destruct (editsLoop snapshot _ []) as [changes|] eqn:Hedits; [|done].
    simpl. intros (acts & Hacts & Hall)%IH. simpl in Hacts.
    eexists (_ :: acts). split; [by rewrite Hacts, <-app_assoc|].
    constructor; [|done]. unfold DerivedFrom. simpl. split_and!; try done.
    apply editsLoop_Ok in Hedits as (new & -> & Hnew).
    exists (rangeOrder st.1 (SuggestedFix_Edits t.2)).
    split; [apply rangeOrder_perm|done].
Qed.

Lemma triplesLoop_Err snapshot ts st t uri e0 :
  t ∈ ts →
  uri ∈ dom (SuggestedFix_Edits t.2) →
  GetFile snapshot uri = Err e0 →
  ∃ err uri', triplesLoop snapshot ts st = Err err
              ∧ GetFile snapshot uri' = Err err.
Proof.
  intros Ht Huri Hget. revert st.
  induction ts as [|t' rest IH]; intros st; [by apply elem_of_nil in Ht|].
  simpl.
  destruct (editsLoop snapshot _ []) as [changes|err] eqn:Hedits; simpl.
  - apply elem_of_cons in Ht as [->|Ht]; [|by apply IH].
    exfalso. apply editsLoop_Ok in Hedits as (new & _ & Hnew).
    apply elem_of_dom in Huri as [edits Hlookup].
    apply (elem_of_rangeOrder st.1) in Hlookup.
    destruct (Forall2_elem_of_l _ _ _ _ Hnew Hlookup)
      as (change & _ & fh & Hfh & _).
    simpl in Hfh. congruence.
  - apply editsLoop_Err in Hedits as (entry & _ & Hentry). eauto.
Qed.

Lemma triplesLoop_total snapshot ts st :
  Forall (λ t, Resolves snapshot t.2) ts →
  ∃ st', triplesLoop snapshot ts st = Ok st'.
Proof.
  intros Hall. revert st.
  induction Hall as [|t rest Ht _ IH]; intros st; simpl; [eauto|].
  destruct (editsLoop_total snapshot
              (rangeOrder st.1 (SuggestedFix_Edits t.2)) [])
    as [changes ->]; [|simpl; apply IH].
  apply Forall_forall. intros [uri edits] Hin. simpl.
  apply Ht, elem_of_dom. exists edits. by apply (elem_of_rangeOrder st.1).
Qed.

(** *** The call *)

Lemma SuggestedFixes_Ok snapshot mth errs diags acts :
  ModTidyHandle snapshot = Ok mth →
  Tidy mth = Ok errs →
  SuggestedFixes snapshot diags = Ok acts →
  Forall2 (DerivedFrom snapshot) (join errs diags) acts.
Proof.
  intros Hmth Herrs. rewrite (SuggestedFixes_main _ _ _ _ Hmth Herrs).
  destruct (triplesLoop snapshot _ _) as [st'|] eqn:Hloop; [|done].
  simpl. intros [= <-].
  by apply triplesLoop_Ok in Hloop as (acts & -> & Hall).
Qed.

(** The call returns actions when every file touched by a fix of the join
    resolves. *)
Lemma SuggestedFixes_total snapshot mth errs diags :
  ModTidyHandle snapshot = Ok mth →
  Tidy mth = Ok errs →
  Forall (λ t, Resolves snapshot t.2) (join errs diags) →
  ∃ acts, SuggestedFixes snapshot diags = Ok acts.
Proof.
  intros Hmth Herrs Hall. rewrite (SuggestedFixes_main _ _ _ _ Hmth Herrs).
  destruct (triplesLoop_total snapshot _ (0, []) Hall) as [st' ->].
  simpl. eauto.
Qed.

Lemma fmap_list_bind {A B C} (f : B → C) (g : A → list B) (l : list A) :
  f <$> (l ≫= g) = l ≫= λ x, f <$> g x.
Proof.
  induction l as [|x l IH]; [done|]. by rewrite !bind_cons, fmap_app, IH.
Qed.

Lemma join_titles errs (diags : list protocol_Diagnostic) :
  (λ t : protocol_Diagnostic * Error * SuggestedFix,
     (SuggestedFix_Title t.2, [t.1.1])) <$> join errs diags
  = diags ≫= λ d,
      filter (λ e, sameDiagnostic d e = true) errs ≫= λ e,
        (λ x, (SuggestedFix_Title x, [d])) <$> Error_SuggestedFixes e.
Proof.
  unfold join. rewrite fmap_list_bind. apply list_bind_ext; [|done].
  intros d. rewrite fmap_list_bind. apply list_bind_ext; [|done].
  intros e. rewrite fmap_list_bind.
  induction (Error_SuggestedFixes e) as [|x l IH]; [done|].
  by rewrite bind_cons, fmap_cons, IH.
Qed.

Lemma DerivedFrom_titles snapshot ts acts :
  Forall2 (DerivedFrom snapshot) ts acts →
  (λ a, (CodeAction_Title a, CodeAction_Diagnostics a)) <$> acts
  = (λ t : protocol_Diagnostic * Error * SuggestedFix,
       (SuggestedFix_Title t.2, [t.1.1])) <$> ts.
Proof.
  induction 1 as [|t a ts acts (Htitle & _ & Hdiags & _) _ IH]; [done|].
  by rewrite !fmap_cons, IH, Htitle, Hdiags.
Qed.

End ActionProperties.

(** C1 fails as worded: [unusedSyntaxDiag] is [unusedDiag], which equals
    [unusedError], with its source changed.  The change removes the
    association with [unusedError], but the changed diagnostic equals
    another error of the analysis, [unusedSyntaxError], and yields the
    action of that error's fix. *)
Lemma SuggestedFixes_changed_source_gets_action :
  @sameDiagnostic sampleExternals unusedDiag unusedError = true
  ∧ protocol_Message unusedSyntaxDiag = protocol_Message unusedDiag
  ∧ protocol_Range unusedSyntaxDiag = protocol_Range unusedDiag
  ∧ protocol_Source unusedSyntaxDiag ≠ protocol_Source unusedDiag
  ∧ @sameDiagnostic sampleExternals unusedSyntaxDiag unusedError = false
  ∧ @SuggestedFixes sampleExternals
      (sampleSnapshot [unusedError; unusedSyntaxError]) [unusedSyntaxDiag]
    = Ok [{| CodeAction_Title := "Rewrite the require statement";
             CodeAction_Kind := QuickFix;
             CodeAction_Diagnostics := [unusedSyntaxDiag];
             CodeAction_Edit :=
               {| DocumentChanges :=
                    [documentEdit (sampleHandle "file:///go.mod")
                       ["replace 20-41"]] |} |}].
Proof. split_and!; try reflexivity. discriminate. Qed.

(** C1, amended: on a successful call the actions are, position by position,
    those derived from the triples of the join, and a triple of diagnostic
    [D], error [E] and fix [X] is in the join exactly when [D] is an input
    diagnostic, [E] an analysis error, [X] a fix of [E], and [D] and [E]
    agree on message, range (by [CompareRange]) and source/category.  A
    diagnostic that differs from [E] in one of the three is not associated
    with [E]; it yields the actions of the analysis errors it does equal.
    A diagnostic that equals no analysis error yields no action and no
    error: no action of the result carries it, and put anywhere into the
    input of a successful call it leaves the call successful with the same
    titles and attached diagnostics. *)
Theorem SuggestedFixes_join_correct `{Externals}
    snapshot mth errs diags acts :
  ModTidyHandle snapshot = Ok mth →
  Tidy mth = Ok errs →
  SuggestedFixes snapshot diags = Ok acts →
  Forall2 (DerivedFrom snapshot) (join errs diags) acts
  ∧ (∀ D E X,
       (D, E, X) ∈ join errs diags
       ↔ D ∈ diags ∧ E ∈ errs ∧ X ∈ Error_SuggestedFixes E
         ∧ protocol_Message D = Error_Message E
         ∧ CompareRange (protocol_Range D) (Error_Range E) = 0%Z
         ∧ protocol_Source D = Error_Category E)
  ∧ (∀ D E X,
       protocol_Message D ≠ Error_Message E
       ∨ CompareRange (protocol_Range D) (Error_Range E) ≠ 0%Z
       ∨ protocol_Source D ≠ Error_Category E →
       (D, E, X) ∉ join errs diags)
  ∧ (∀ D a,
       (∀ E, E ∈ errs → sameDiagnostic D E = false) →
       a ∈ acts → CodeAction_Diagnostics a ≠ [D])
  ∧ (∀ pre D post,
       diags = pre ++ post →
       (∀ E, E ∈ errs → sameDiagnostic D E = false) →
       ∃ acts',
         SuggestedFixes snapshot (pre ++ D :: post) = Ok acts'
         ∧ titleAndDiagnostics <$> acts' = titleAndDiagnostics <$> acts).
Proof.
  intros Hmth Herrs Hacts.
  pose proof (SuggestedFixes_Ok _ _ _ _ _ Hmth Herrs Hacts) as Hall.
  split_and!.
  - done.
  - intros D E X. rewrite elem_of_join, sameDiagnostic_true. tauto.
  - intros D E X Hdiff (_ & _ & _ & Hsame)%elem_of_join.
    apply sameDiagnostic_true in Hsame. tauto.
  - intros D a Hnone Ha Hdiags.
    destruct (Forall2_elem_of_r _ _ _ _ Hall Ha)
      as ([[D' E] X] & (_ & HE & _ & Hsame)%elem_of_join
          & _ & _ & Hdiags' & _).
    simpl in Hdiags'. rewrite Hdiags in Hdiags'. injection Hdiags' as ->.
    by rewrite (Hnone E HE) in Hsame.
  - intros pre D post -> Hnone. exists acts. split; [|done].
    rewrite <-Hacts. rewrite !(SuggestedFixes_main _ _ _ _ Hmth Herrs).
    by rewrite (join_unmatched _ _ _ _ Hnone).
Qed.

Lemma SuggestedFixes_join_correct_witness :
  ∃ acts,
    @SuggestedFixes sampleExternals
      (sampleSnapshot [unusedError; missingError]) [unusedDiag] = Ok acts
    ∧ (unusedDiag, unusedError, removeFix)
      ∈ @join sampleExternals [unusedError; missingError] [unusedDiag]
    ∧ Forall2 (@DerivedFrom sampleExternals
                 (sampleSnapshot [unusedError; missingError]))
        (@join sampleExternals [unusedError; missingError] [unusedDiag]) acts.
Proof.
  assert (∃ acts, @SuggestedFixes sampleExternals
                    (sampleSnapshot [unusedError; missingError]) [unusedDiag]
                  = Ok acts) as [acts Hacts] by (eexists; reflexivity).
  exists acts.
  pose proof (@SuggestedFixes_join_correct sampleExternals
                (sampleSnapshot [unusedError; missingError])
                {| Tidy := Ok [unusedError; missingError] |}
                [unusedError; missingError] [unusedDiag] acts
                eq_refl eq_refl Hacts) as (Hall & Hjoin & _).
  split_and!; [exact Hacts| |exact Hall].
  apply Hjoin. split_and!; try reflexivity; apply list_elem_of_In; simpl; tauto.
Defined.

(** C6: when a file touched by a fix of a matched error does not resolve,
    the call returns the error of a failed resolution and no action at all;
    every action of a successful call carries an edit group for each file
    its fix touches. *)
Theorem SuggestedFixes_all_or_nothing `{Externals} snapshot mth errs diags :
  ModTidyHandle snapshot = Ok mth →
  Tidy mth = Ok errs →
  (∀ D E X uri e0,
     D ∈ diags → E ∈ errs → sameDiagnostic D E = true →
     X ∈ Error_SuggestedFixes E →
     uri ∈ dom (SuggestedFix_Edits X) →
     GetFile snapshot uri = Err e0 →
     ∃ err uri', SuggestedFixes snapshot diags = Err err
                 ∧ GetFile snapshot uri' = Err err)
  ∧ (∀ acts a,
       SuggestedFixes snapshot diags = Ok acts → a ∈ acts →
       ∃ D E X, (D, E, X) ∈ join errs diags
                ∧ CodeAction_Title a = SuggestedFix_Title X
                ∧ CodeAction_Diagnostics a = [D]
                ∧ CompleteEdits snapshot X
                    (DocumentChanges (CodeAction_Edit a))).
Proof.
  intros Hmth Herrs. split.
  - intros D E X uri e0 HD HE Hsame HX Huri Hget.
    assert ((D, E, X) ∈ join errs diags) as Hin by by apply elem_of_join.
    destruct (triplesLoop_Err snapshot _ (0, []) _ uri e0 Hin Huri Hget)
      as (err & uri' & Hloop & Hget').
    exists err, uri'. split; [|done].
    by rewrite (SuggestedFixes_main _ _ _ _ Hmth Herrs), Hloop.
  - intros acts a Hacts Ha.
    pose proof (SuggestedFixes_Ok _ _ _ _ _ Hmth Herrs Hacts) as Hall.
    destruct (Forall2_elem_of_r _ _ _ _ Hall Ha)
      as ([[D E] X] & Hin & Htitle & _ & Hdiags & Hedits).
    exists D, E, X. by split_and!.
Qed.

Lemma SuggestedFixes_all_or_nothing_witness :
  ∃ err uri',
    @SuggestedFixes sampleExternals
      (sampleSnapshot [unusedError; missingError2]) [unusedDiag; missingDiag]
    = Err err
    ∧ GetFile (sampleSnapshot [unusedError; missingError2]) uri' = Err err.
Proof.
  apply (proj1 (@SuggestedFixes_all_or_nothing sampleExternals
                  (sampleSnapshot [unusedError; missingError2])
                  {| Tidy := Ok [unusedError; missingError2] |}
                  [unusedError; missingError2] [unusedDiag; missingDiag]
                  eq_refl eq_refl)
           missingDiag missingError2 goneFix "file:///gone"
           (errorString "file does not exist")).
  - apply list_elem_of_In. simpl. tauto.
  - apply list_elem_of_In. simpl. tauto.
  - reflexivity.
  - apply list_elem_of_In. simpl. tauto.
  - apply elem_of_dom. exists ["insert at 0"]. reflexivity.
  - reflexivity.
Defined.

(** C9: the actions follow the input diagnostics in the order given, within
    a diagnostic the analysis errors that equal it in analysis order, within
    an error its fixes in order; there is one action for every such
    combination, equal titles or not, and the diagnostics of an action are
    the one input diagnostic that matched. *)
Theorem SuggestedFixes_order `{Externals} snapshot mth errs diags acts :
  ModTidyHandle snapshot = Ok mth →
  Tidy mth = Ok errs →
  SuggestedFixes snapshot diags = Ok acts →
  (λ a, (CodeAction_Title a, CodeAction_Diagnostics a)) <$> acts
  = (diags ≫= λ d,
       filter (λ e, sameDiagnostic d e = true) errs ≫= λ e,
         (λ x, (SuggestedFix_Title x, [d])) <$> Error_SuggestedFixes e)
  ∧ length acts = length (join errs diags)
  ∧ Forall (λ a, ∃ d, d ∈ diags ∧ CodeAction_Diagnostics a = [d]) acts.
Proof.
  intros Hmth Herrs Hacts.
  pose proof (SuggestedFixes_Ok _ _ _ _ _ Hmth Herrs Hacts) as Hall.
  split_and!.
  - rewrite <-join_titles. by apply (DerivedFrom_titles snapshot).
  - symmetry. by eapply Forall2_length.
  - apply Forall_forall. intros a Ha.
    destruct (Forall2_elem_of_r _ _ _ _ Hall Ha)
      as ([[d e] x] & (Hd & _)%elem_of_join & _ & _ & Hdiags & _).
    by exists d.
Qed.

(** Two distinct errors equal to [unusedDiag] carry fixes with one title:
    both actions are emitted, after the action of the diagnostic given
    first. *)
Lemma SuggestedFixes_order_witness :
  ∃ acts,
    @SuggestedFixes sampleExternals
      (sampleSnapshot [unusedError; missingError; unusedError2])
      [missingDiag; unusedDiag] = Ok acts
    ∧ (λ a, (CodeAction_Title a, CodeAction_Diagnostics a)) <$> acts
      = [("Add example.net to your go.mod file", [missingDiag]);
         ("Remove dependency: example.org", [unusedDiag]);
         ("Remove dependency: example.org", [unusedDiag])].
Proof.
  assert (∃ acts, @SuggestedFixes sampleExternals
                    (sampleSnapshot [unusedError; missingError; unusedError2])
                    [missingDiag; unusedDiag] = Ok acts) as [acts Hacts]
    by (eexists; reflexivity).
  exists acts. split; [exact Hacts|].
  rewrite (proj1 (@SuggestedFixes_order sampleExternals
                    (sampleSnapshot [unusedError; missingError; unusedError2])
                    {| Tidy := Ok [unusedError; missingError; unusedError2] |}
                    [unusedError; missingError; unusedError2]
                    [missingDiag; unusedDiag] acts eq_refl eq_refl Hacts)).
  reflexivity.
Defined.

(** A diagnostic changed in one field is no longer associated with the error
    it equalled: with the source of [unusedDiag] changed, the fix of
    [unusedError] is not offered.  It gets the actions of another analysis
    error when it now equals that one, and none when the analysis has no
    such error. *)
Example changed_source :
  (λ a, CodeAction_Title a) <$>
    default [] (match @SuggestedFixes sampleExternals
                        (sampleSnapshot [unusedError; unusedSyntaxError])
                        [unusedDiag] with Ok acts => Some acts | _ => None end)
  = ["Remove dependency: example.org"]
  ∧ (λ a, CodeAction_Title a) <$>
      default [] (match @SuggestedFixes sampleExternals
                          (sampleSnapshot [unusedError; unusedSyntaxError])
                          [unusedSyntaxDiag] with
                  | Ok acts => Some acts | _ => None end)
    = ["Rewrite the require statement"]
  ∧ @SuggestedFixes sampleExternals (sampleSnapshot [unusedError])
      [unusedSyntaxDiag] = Ok [].
Proof. split_and!; reflexivity. Qed.

(** * Further properties of [ExtractGoCommandError] *)

Lemma find_split {A} (f : A → bool) l x :
  List.find f l = Some x →
  ∃ pre post, l = pre ++ x :: post
              ∧ Forall (λ y, f y = false) pre ∧ f x = true.
Proof.
  induction l as [|y l IH]; simpl; [done|].
  destruct (f y) eqn:Hy.
  - intros [= ->]. exists [], l. by split_and!.
  - intros (pre & post & -> & Hpre & Hx)%IH.
    exists (y :: pre), post. split_and!; [done|by constructor|done].
Qed.

Lemma find_None_Forall {A} (f : A → bool) l :
  List.find f l = None → Forall (λ y, f y = false) l.
Proof.
  induction l as [|y l IH]; simpl; [by constructor|].
  destruct (f y) eqn:Hy; [done|]. intros Hl. constructor; [done|by apply IH].
Qed.

Lemma occurs_app c a b :
  regexp.occurs c (a +:+ b) = regexp.occurs c a || regexp.occurs c b.
Proof. induction a as [|x a IH]; simpl; [done|]. by rewrite IH, orb_assoc. Qed.

(** The pieces of a split are free of the separator. *)
Lemma Split_no_separator_in s sep seg :
  seg ∈ strings.Split s sep → regexp.occurs sep seg = false.
Proof.
  revert seg. induction s as [|a r IH]; intros seg; simpl.
  - by intros ->%list_elem_of_singleton.
  - destruct (Ascii.eqb a sep) eqn:Ha.
    + intros [->|Hin]%elem_of_cons; [done|by apply IH].
    + destruct (strings.Split r sep) as [|seg' segs] eqn:Hsplit.
      * intros ->%list_elem_of_singleton. simpl. by rewrite Ha.
      * intros [->|Hin]%elem_of_cons; simpl.
        -- rewrite Ha. apply IH. by left.
        -- apply IH. by right.
Qed.

Lemma firstSome_Some {A B} (f : A → option B) l y :
  regexp.firstSome f l = Some y → ∃ x, x ∈ l ∧ f x = Some y.
Proof.
  induction l as [|x l IH]; simpl; [done|].
  destruct (f x) as [y'|] eqn:Hx.
  - intros [= ->]. exists x. split; [by left|done].
  - intros (x' & Hin & Hx')%IH. exists x'. split; [by right|done].
Qed.

Lemma firstSome_first {A B} (f : A → option B) pre x post y :
  Forall (λ z, f z = None) pre → f x = Some y →
  regexp.firstSome f (pre ++ x :: post) = Some y.
Proof.
  induction 1 as [|z pre Hz _ IH]; intros Hx; simpl.
  - by rewrite Hx.
  - rewrite Hz. by apply IH.
Qed.

(** A match of the pattern lies within one line of the text: the line is the
    module group, an [@] and the version group, and the version group has no
    [@]. *)
Lemma FindStringSubmatch_Some s m v :
  regexp.FindStringSubmatch s = Some (m, v) →
  ∃ line, line ∈ strings.Split s regexp.newline
          ∧ line = m +:+ String "@"%char v
          ∧ regexp.occurs "@"%char v = false.
Proof.
  intros (line & Hline & Hsplit)%firstSome_Some.
  apply splitLast_Some in Hsplit as [-> Hv]. by exists (m +:+ String "@" v).
Qed.

Section LocateMore.
Context `{Externals}.

(** The search ends at the statement of [FirstMatch], or no statement
    matches. *)
Lemma locate_cases fh m loadErr parsed v :
  (∃ line, FirstMatch v parsed line
           ∧ locate fh m loadErr parsed v = toDiagnostic fh m loadErr line)
  ∨ (NoMatch v parsed
     ∧ locate fh m loadErr parsed v = Err (noDiagnosticsFor loadErr)).
Proof.
  assert (∀ l, Forall (λ r, bool_decide (Require_Mod r = v) = false) l →
               Forall (λ r, Require_Mod r ≠ v) l) as Hreq.
  { intros l Hl. eapply Forall_impl; [exact Hl|].
    intros r Hr. simpl in Hr. by apply bool_decide_eq_false in Hr. }
  assert (∀ l, Forall (λ x, bool_decide (Exclude_Mod x = v) = false) l →
               Forall (λ x, Exclude_Mod x ≠ v) l) as Hex.
  { intros l Hl. eapply Forall_impl; [exact Hl|].
    intros r Hr. simpl in Hr. by apply bool_decide_eq_false in Hr. }
  assert (∀ l, Forall (λ r, negb (bool_decide (Replace_New r ≠ v)
                                  && bool_decide (Replace_Old r ≠ v)) = false)
                      l →
               Forall (λ r, Replace_New r ≠ v ∧ Replace_Old r ≠ v) l) as Hrep.
  { intros l Hl. eapply Forall_impl; [exact Hl|]. intros r Hr. simpl in Hr.
    apply negb_false_iff, andb_true_iff in Hr as [Hn Ho].
    by apply bool_decide_eq_true in Hn, Ho. }
  destruct (List.find (λ req, bool_decide (Require_Mod req = v))
              (File_Require parsed)) as [req|] eqn:Hfind1.
  { left. exists (Require_Syntax req).
    split; [|by unfold locate; rewrite Hfind1].
    apply find_split in Hfind1 as (pre & post & Hl & Hpre & Hx).
    eapply FirstMatch_require; [exact Hl|by apply Hreq|].
    by apply bool_decide_eq_true in Hx. }
  pose proof (Hreq _ (find_None_Forall _ _ Hfind1)) as Hno1.
  destruct (List.find (λ ex, bool_decide (Exclude_Mod ex = v))
              (File_Exclude parsed)) as [ex|] eqn:Hfind2.
  { left. exists (Exclude_Syntax ex).
    split; [|by unfold locate; rewrite Hfind1, Hfind2].
    apply find_split in Hfind2 as (pre & post & Hl & Hpre & Hx).
    eapply FirstMatch_exclude; [done|exact Hl|by apply Hex|].
    by apply bool_decide_eq_true in Hx. }
  pose proof (Hex _ (find_None_Forall _ _ Hfind2)) as Hno2.
  destruct (List.find (λ rep, negb (bool_decide (Replace_New rep ≠ v)
                                    && bool_decide (Replace_Old rep ≠ v)))
              (File_Replace parsed)) as [rep|] eqn:Hfind3.
  { left. exists (Replace_Syntax rep).
    split; [|by unfold locate; rewrite Hfind1, Hfind2, Hfind3].
    apply find_split in Hfind3 as (pre & post & Hl & Hpre & Hx).
    eapply FirstMatch_replace; [done|done|exact Hl|by apply Hrep|].
    apply negb_true_iff, andb_false_iff in Hx as [Hx|Hx];
      apply bool_decide_eq_false in Hx.
    - left. by destruct (decide (Replace_New rep = v)).
    - right. by destruct (decide (Replace_Old rep = v)). }
  pose proof (Hrep _ (find_None_Forall _ _ Hfind3)) as Hno3.
  right. split; [done|]. by unfold locate; rewrite Hfind1, Hfind2, Hfind3.
Qed.

(** A property of every candidate of every segment holds of the token. *)
Lemma scanSegments_ind (P : module_Version → Prop) segments v :
  P v →
  Forall (λ s, ∀ path version,
            regexp.FindStringSubmatch (strings.TrimSpace s)
            = Some (path, version) →
            P {| Path := path; Version := version |}) segments →
  P (scanSegments segments v).
Proof.
  intros Hv Hall. revert v Hv.
  induction Hall as [|s rest Hs _ IH]; intros v Hv; simpl; [done|].
  destruct (regexp.FindStringSubmatch _) as [[path version]|] eqn:Hmatch;
    [|by apply IH].
  destruct (module_Check path version); [apply IH|]; by apply Hs.
Qed.

End LocateMore.

(** X1: a diagnostic is returned only for a parsed manifest, and it is
    anchored at the statement the search order selects for the extracted
    token: its range is the conversion of that statement's offsets, its
    message the raw error text and its severity [Error]. *)
Theorem ExtractGoCommandError_sound `{Externals} snapshot fh loadErr d :
  ExtractGoCommandError snapshot fh loadErr = Ok d →
  ∃ pmh parsed m line,
    ParseModHandle snapshot fh = Ok pmh
    ∧ Parse pmh = Ok (parsed, m)
    ∧ FirstMatch (extractVersion loadErr) parsed line
    ∧ rangeFromPositions (FileHandle_URI fh) m
        (Line_Start line) (Line_End line) = Ok (Diagnostic_Range d)
    ∧ Diagnostic_Message d = loadErr
    ∧ Diagnostic_Severity d = SeverityError.
Proof.
  unfold ExtractGoCommandError.
  destruct (ParseModHandle snapshot fh) as [pmh|] eqn:Hpmh; [|done]. simpl.
  destruct (Parse pmh) as [[parsed m]|] eqn:Hparse; [|done]. simpl.
  intros Hd. exists pmh, parsed, m.
  destruct (locate_cases fh m loadErr parsed (extractVersion loadErr))
    as [(line & Hfirst & Hloc)|[_ Hloc]]; rewrite Hloc in Hd; [|done].
  apply toDiagnostic_Ok in Hd as (Hmsg & Hsev & _ & Hrng).
  exists line. by split_and!.
Qed.

Lemma ExtractGoCommandError_sound_witness :
  ∃ pmh parsed m line,
    ParseModHandle (sampleSnapshot []) (sampleHandle "file:///go.mod") = Ok pmh
    ∧ Parse pmh = Ok (parsed, m)
    ∧ @FirstMatch (@extractVersion sampleExternals sampleText) parsed line
    ∧ @rangeFromPositions sampleExternals "file:///go.mod" m
        (Line_Start line) (Line_End line) = Ok (42%Z, 68%Z)
    ∧ sampleText = sampleText
    ∧ SeverityError = SeverityError.
Proof.
  apply (@ExtractGoCommandError_sound sampleExternals (sampleSnapshot [])
           (sampleHandle "file:///go.mod") sampleText
           {| Diagnostic_Message := sampleText;
              Diagnostic_Range := (42%Z, 68%Z) : @Range sampleExternals;
              Diagnostic_Severity := SeverityError;
              Diagnostic_Source := "" |}).
  reflexivity.
Defined.

(** X2: when the position mapper fails on the selected statement, the call
    fails with the mapper's error: that of the start offset, else that of
    the end offset, else that of the range conversion.  Statements that
    match later in the search order are not tried. *)
Theorem ExtractGoCommandError_conversion_failure `{Externals}
    snapshot fh loadErr pmh parsed m line :
  ParseModHandle snapshot fh = Ok pmh →
  Parse pmh = Ok (parsed, m) →
  FirstMatch (extractVersion loadErr) parsed line →
  (∀ err, ToPosition m (Position_Byte (Line_Start line)) = Err err →
          ExtractGoCommandError snapshot fh loadErr = Err err)
  ∧ (∀ l1 c1 err,
       ToPosition m (Position_Byte (Line_Start line)) = Ok (l1, c1) →
       ToPosition m (Position_Byte (Line_End line)) = Err err →
       ExtractGoCommandError snapshot fh loadErr = Err err)
  ∧ (∀ l1 c1 l2 c2 err,
       ToPosition m (Position_Byte (Line_Start line)) = Ok (l1, c1) →
       ToPosition m (Position_Byte (Line_End line)) = Ok (l2, c2) →
       ColumnMapper_Range m
         (span_New (FileHandle_URI fh)
            (NewPoint l1 c1 (Position_Byte (Line_Start line)))
            (NewPoint l2 c2 (Position_Byte (Line_End line)))) = Err err →
       ExtractGoCommandError snapshot fh loadErr = Err err).
Proof.
  intros Hpmh Hparse Hfirst.
  rewrite (ExtractGoCommandError_parsed _ _ _ _ _ _ Hpmh Hparse).
  rewrite (locate_FirstMatch _ _ _ _ _ _ Hfirst).
  unfold toDiagnostic, rangeFromPositions. split_and!.
  - by intros err ->.
  - by intros l1 c1 err -> ->.
  - intros l1 c1 l2 c2 err -> ->. simpl. by intros ->.
Qed.

(** The [require] of [sampleFile] starts within the first 50 bytes and ends
    beyond them; the [exclude] and [replace] that match too are not
    consulted. *)
Lemma ExtractGoCommandError_conversion_failure_witness :
  @ExtractGoCommandError sampleExternals (truncatedSnapshot 50)
    (sampleHandle "file:///go.mod") sampleText
  = Err (errorString "offset out of range").
Proof.
  assert (@extractVersion sampleExternals sampleText = exampleCom) as Hv
    by (vm_compute; reflexivity).
  refine (proj1 (proj2
            (@ExtractGoCommandError_conversion_failure sampleExternals
               (truncatedSnapshot 50) (sampleHandle "file:///go.mod")
               sampleText {| Parse := Ok (sampleFile, boundedMapper 50) |}
               sampleFile (boundedMapper 50) (lineAt 42 68)
               eq_refl eq_refl _)) 0%Z 42%Z _ eq_refl eq_refl).
  rewrite Hv.
  apply (FirstMatch_require exampleCom sampleFile
           [{| Require_Mod := {| Path := "example.org"; Version := "v0.1.0" |};
               Require_Syntax := lineAt 20 41 |}]
           {| Require_Mod := exampleCom; Require_Syntax := lineAt 42 68 |} []);
    try reflexivity.
  constructor; [discriminate|constructor].
Defined.

(** X3: whatever the error text, the path and the version of the extracted
    token contain neither a colon nor a line feed, and the version contains
    no [@]. *)
Theorem extractVersion_characters `{Externals} text :
  regexp.occurs ":"%char (Path (extractVersion text)) = false
  ∧ regexp.occurs ":"%char (Version (extractVersion text)) = false
  ∧ regexp.occurs regexp.newline (Path (extractVersion text)) = false
  ∧ regexp.occurs regexp.newline (Version (extractVersion text)) = false
  ∧ regexp.occurs "@"%char (Version (extractVersion text)) = false.
Proof.
  unfold extractVersion.
  apply (scanSegments_ind
           (λ v, regexp.occurs ":"%char (Path v) = false
                 ∧ regexp.occurs ":"%char (Version v) = false
                 ∧ regexp.occurs regexp.newline (Path v) = false
                 ∧ regexp.occurs regexp.newline (Version v) = false
                 ∧ regexp.occurs "@"%char (Version v) = false)); [done|].
  apply Forall_forall. intros seg Hseg path version Hmatch. simpl.
  apply FindStringSubmatch_Some in Hmatch as (line & Hline & Heq & Hat).
  assert (regexp.occurs ":"%char line = false) as Hcolon.
  { apply not_true_is_false. intros Hc.
    pose proof (Split_occurs _ _ _ _ Hline Hc) as Hc'.
    apply TrimSpace_occurs in Hc'.
    by rewrite (Split_no_separator_in _ _ _ Hseg) in Hc'. }
  pose proof (Split_no_separator_in _ _ _ Hline) as Hnl.
  rewrite Heq, occurs_app in Hcolon, Hnl. simpl in Hcolon, Hnl.
  apply orb_false_iff in Hcolon as [Hc1 Hc2], Hnl as [Hn1 Hn2].
  by split_and!.
Qed.

(** X4: the token is the split of the first segment that matches the pattern
    and passes [module.Check]; segments after it, matching or not, are not
    looked at. *)
Theorem extractVersion_first_valid `{Externals}
    text pre segment post path version :
  strings.Split text ":"%char = pre ++ segment :: post →
  Forall (λ s, validCandidate s = None) pre →
  regexp.FindStringSubmatch (strings.TrimSpace segment)
  = Some (path, version) →
  module_Check path version = None →
  extractVersion text = {| Path := path; Version := version |}.
Proof.
  intros Hsplit Hpre Hmatch Hcheck. unfold extractVersion. rewrite Hsplit.
  apply scanSegments_first_valid, firstSome_first; [done|].
  unfold validCandidate. by rewrite Hmatch, Hcheck.
Qed.

Lemma extractVersion_first_valid_witness :
  @extractVersion sampleExternals
    "go: bad@latest: example.com@v1.2.2: other.org@v2.0.0"
  = exampleCom.
Proof.
  apply (@extractVersion_first_valid sampleExternals
           "go: bad@latest: example.com@v1.2.2: other.org@v2.0.0"
           ["go"; " bad@latest"] " example.com@v1.2.2" [" other.org@v2.0.0"]
           "example.com" "v1.2.2").
  - vm_compute. reflexivity.
  - repeat constructor.
  - vm_compute. reflexivity.
  - reflexivity.
Defined.

(** * Further properties of [Diagnostics] *)

Section DiagnosticsMore.
Context `{Externals}.

Lemma reportLoop_first_failure snapshot pre e post reports err :
  Forall (λ e', is_Some (identityOf snapshot e')) pre →
  GetFile snapshot (Error_URI e) = Err err →
  reportLoop snapshot (pre ++ e :: post) reports = Err err.
Proof.
  intros Hpre Herr. revert reports.
  induction Hpre as [|e' pre [k Hk] _ IH]; intros reports; simpl.
  - by rewrite Herr.
  - unfold identityOf in Hk.
    destruct (GetFile snapshot (Error_URI e')) as [fh|]; [|done]. simpl.
    apply IH.
Qed.

Lemma totalDiagnostics_insert_None
    (m : gmap FileIdentity (list Diagnostic)) k l :
  m !! k = None →
  totalDiagnostics (<[k := l]> m) = length l + totalDiagnostics m.
Proof.
  intros Hk. unfold totalDiagnostics.
  by rewrite (map_to_list_insert m k l Hk).
Qed.

Lemma totalDiagnostics_append
    (m : gmap FileIdentity (list Diagnostic)) k d :
  totalDiagnostics (<[k := default [] (m !! k) ++ [d]]> m)
  = S (totalDiagnostics m).
Proof.
  destruct (m !! k) as [old|] eqn:Hk; simpl.
  - rewrite <-insert_delete_eq.
    rewrite <-(insert_id m k old Hk) at 2. rewrite <-(insert_delete_eq m).
    rewrite !totalDiagnostics_insert_None by apply lookup_delete_eq.
    rewrite length_app. simpl. lia.
  - by rewrite totalDiagnostics_insert_None.
Qed.

Lemma reportLoop_total_count snapshot errs reports m :
  reportLoop snapshot errs reports = Ok m →
  totalDiagnostics m = totalDiagnostics reports + length errs.
Proof.
  revert reports. induction errs as [|e rest IH]; intros reports; simpl.
  - intros [= <-]. lia.
  - destruct (GetFile snapshot (Error_URI e)) as [fh|]; [|done]. simpl.
    intros Hm%IH. rewrite Hm, totalDiagnostics_append. lia.
Qed.

End DiagnosticsMore.

(** X5: when the file of an analysis error does not resolve, [Diagnostics]
    returns the error of the first such analysis error and no map, whatever
    diagnostics were collected before it. *)
Theorem Diagnostics_first_failure `{Externals}
    snapshot fh mth pre e post err :
  ModFile snapshot ≠ "" →
  GetFile snapshot (ModFile snapshot) = Ok fh →
  ModTidyHandle snapshot = Ok mth →
  Tidy mth = Ok (pre ++ e :: post) →
  Forall (λ e', is_Some (identityOf snapshot e')) pre →
  GetFile snapshot (Error_URI e) = Err err →
  Diagnostics snapshot = Err err.
Proof.
  intros Huri Hfh Hmth Herrs Hpre Herr.
  rewrite (Diagnostics_main _ _ _ _ Huri Hfh Hmth Herrs).
  by apply reportLoop_first_failure.
Qed.

Lemma Diagnostics_first_failure_witness :
  @Diagnostics sampleExternals
    (sampleSnapshot [syntaxError; goneError; unusedError])
  = Err (errorString "file does not exist").
Proof.
  apply (@Diagnostics_first_failure sampleExternals
           (sampleSnapshot [syntaxError; goneError; unusedError])
           (sampleHandle "file:///go.mod")
           {| Tidy := Ok [syntaxError; goneError; unusedError] |}
           [syntaxError] goneError [unusedError]);
    try reflexivity.
  - discriminate.
  - constructor; [|constructor]. by eexists.
Defined.

(** X6: a successful call loses and duplicates nothing: over all files, the
    map holds as many diagnostics as the analysis reported errors. *)
Theorem Diagnostics_total_count `{Externals} snapshot fh mth errs m :
  ModFile snapshot ≠ "" →
  GetFile snapshot (ModFile snapshot) = Ok fh →
  ModTidyHandle snapshot = Ok mth →
  Tidy mth = Ok errs →
  Diagnostics snapshot = Ok m →
  totalDiagnostics m = length errs.
Proof.
  intros Huri Hfh Hmth Herrs.
  rewrite (Diagnostics_main _ _ _ _ Huri Hfh Hmth Herrs).
  intros ->%reportLoop_total_count. unfold totalDiagnostics.
  by rewrite map_to_list_singleton.
Qed.

Lemma Diagnostics_total_count_witness :
  @totalDiagnostics sampleExternals
    (<["file:///main.go" := [diagnosticOf missingError]]>
       {[ "file:///go.mod" :=
            [diagnosticOf syntaxError; diagnosticOf unusedError] ]})
  = 3.
Proof.
  apply (@Diagnostics_total_count sampleExternals
           (sampleSnapshot sampleErrors) (sampleHandle "file:///go.mod")
           {| Tidy := Ok sampleErrors |} sampleErrors);
    try reflexivity.
  discriminate.
Defined.

(** X7: the two entry points compose.  A diagnostic published by
    [Diagnostics], presented back by the client with its message and source
    and with a range that compares equal, is the same diagnostic as the
    analysis error it was made from, and a successful [SuggestedFixes] on it
    offers an action for every fix of that error. *)
Theorem published_diagnostic_gets_its_fixes `{Externals}
    snapshot fh mth errs m k ds d p :
  ModFile snapshot ≠ "" →
  GetFile snapshot (ModFile snapshot) = Ok fh →
  ModTidyHandle snapshot = Ok mth →
  Tidy mth = Ok errs →
  Diagnostics snapshot = Ok m →
  m !! k = Some ds →
  d ∈ ds →
  protocol_Message p = Diagnostic_Message d →
  protocol_Source p = Diagnostic_Source d →
  CompareRange (protocol_Range p) (Diagnostic_Range d) = 0%Z →
  ∃ e, e ∈ errs
       ∧ d = diagnosticOf e
       ∧ sameDiagnostic p e = true
       ∧ ∀ acts x,
           SuggestedFixes snapshot [p] = Ok acts →
           x ∈ Error_SuggestedFixes e →
           ∃ a, a ∈ acts
                ∧ CodeAction_Title a = SuggestedFix_Title x
                ∧ CodeAction_Diagnostics a = [p].
Proof.
  intros Huri Hfh Hmth Herrs Hm Hds Hd Hmsg Hsrc Hrng.
  rewrite (Diagnostics_lookup _ _ _ _ _ k Huri Hfh Hmth Herrs Hm) in Hds
    by (apply elem_of_dom; eauto).
  injection Hds as <-.
  apply list_elem_of_fmap in Hd as (e & -> & [_ He]%list_elem_of_filter).
  assert (sameDiagnostic p e = true) as Hsame by by apply sameDiagnostic_true.
  exists e. split_and!; [done..|].
  intros acts x Hacts Hx.
  assert ((p, e, x) ∈ join errs [p]) as Hin.
  { apply elem_of_join. split_and!; [by left|done..]. }
  pose proof (SuggestedFixes_Ok _ _ _ _ _ Hmth Herrs Hacts) as Hall.
  destruct (Forall2_elem_of_l _ _ _ _ Hall Hin)
    as (a & Ha & Htitle & _ & Hdiags & _).
  by exists a.
Qed.

Lemma published_diagnostic_gets_its_fixes_witness :
  ∃ e, e ∈ sampleErrors
       ∧ @diagnosticOf sampleExternals unusedError = diagnosticOf e
       ∧ @sameDiagnostic sampleExternals unusedDiag e = true
       ∧ ∀ acts x,
           @SuggestedFixes sampleExternals (sampleSnapshot sampleErrors)
             [unusedDiag] = Ok acts →
           x ∈ Error_SuggestedFixes e →
           ∃ a, a ∈ acts
                ∧ CodeAction_Title a = SuggestedFix_Title x
                ∧ CodeAction_Diagnostics a = [unusedDiag].
Proof.
  apply (@published_diagnostic_gets_its_fixes sampleExternals
           (sampleSnapshot sampleErrors) (sampleHandle "file:///go.mod")
           {| Tidy := Ok sampleErrors |} sampleErrors
           (<["file:///main.go" := [diagnosticOf missingError]]>
              {[ "file:///go.mod" :=
                   [diagnosticOf syntaxError; diagnosticOf unusedError] ]})
           "file:///go.mod"
           [diagnosticOf syntaxError; diagnosticOf unusedError]);
    try reflexivity.
  - discriminate.
  - apply list_elem_of_In. simpl. tauto.
Defined.

(** * Further properties of [SuggestedFixes] *)

Section SuggestedFixesMore.
Context `{Externals}.

Lemma indexErrors_nonempty errs (errorsMap : gmap string (list Error)) :
  (∀ k l, errorsMap !! k = Some l → l ≠ []) →
  ∀ k l, indexErrors errs errorsMap !! k = Some l → l ≠ [].
Proof.
  revert errorsMap. induction errs as [|e rest IH]; intros errorsMap Hne;
    simpl; [done|].
  apply IH. intros k l.
  destruct (decide (Error_Message e = k)) as [<-|Hk].
  - rewrite lookup_insert_eq. intros [= <-]. by intros [_ ?]%app_eq_nil.
  - rewrite lookup_insert_ne by done.
    destruct (errorsMap !! Error_Message e); [apply Hne|].
    rewrite lookup_insert_ne by done. apply Hne.
Qed.

Lemma join_app errs (diags1 diags2 : list protocol_Diagnostic) :
  join errs (diags1 ++ diags2) = join errs diags1 ++ join errs diags2.
Proof. unfold join. apply bind_app. Qed.

Lemma join_unmatched_all errs (diags : list protocol_Diagnostic) :
  (∀ d e, d ∈ diags → e ∈ errs → sameDiagnostic d e = false) →
  join errs diags = [].
Proof.
  intros Hnone. destruct (join errs diags) as [|[[d e] x] l] eqn:Hjoin;
    [done|].
  assert ((d, e, x) ∈ join errs diags) as Hin by (rewrite Hjoin; by left).
  apply elem_of_join in Hin as (Hd & He & _ & Hsame).
  by rewrite (Hnone d e Hd He) in Hsame.
Qed.

Lemma CompleteEdits_Resolves snapshot x changes :
  CompleteEdits snapshot x changes → Resolves snapshot x.
Proof.
  intros (entries & Hperm & Hall) uri [edits Huri]%elem_of_dom.
  apply elem_of_map_to_list in Huri. rewrite <-Hperm in Huri.
  destruct (Forall2_elem_of_l _ _ _ _ Hall Huri) as (c & _ & fh & Hfh & _).
  simpl in Hfh. by rewrite Hfh.
Qed.


Lemma SuggestedFixes_Ok_Resolves snapshot mth errs diags acts :
  ModTidyHandle snapshot = Ok mth →
  Tidy mth = Ok errs →
  SuggestedFixes snapshot diags = Ok acts →
  Forall (λ t, Resolves snapshot t.2) (join errs diags).
Proof.
  intros Hmth Herrs Hacts.
  pose proof (SuggestedFixes_Ok _ _ _ _ _ Hmth Herrs Hacts) as Hall.
  apply Forall_forall. intros t Ht.
  destruct (Forall2_elem_of_l _ _ _ _ Hall Ht) as (a & _ & _ & _ & _ & Hc).
  by eapply CompleteEdits_Resolves.
Qed.

End SuggestedFixesMore.

(** X8: the index built from the analysis maps a message to the analysis
    errors that carry it, in analysis order, and has no entry for a message
    that no error carries. *)
Theorem indexErrors_correct `{Externals} (errs : list Error) msg :
  indexErrors errs ∅ !! msg
  = match filter (λ e, Error_Message e = msg) errs with
    | [] => None
    | l => Some l
    end.
Proof.
  pose proof (indexErrors_candidates errs msg) as Hdefault.
  pose proof (indexErrors_nonempty errs ∅) as Hne.
  destruct (indexErrors errs ∅ !! msg) as [l|] eqn:Hl; simpl in Hdefault.
  - subst l. destruct (filter _ errs) eqn:Hf; [|done].
    exfalso. eapply Hne; [|exact Hl|done]. intros k l. by rewrite lookup_empty.
  - by rewrite <-Hdefault.
Qed.

(** X9: when no input diagnostic equals an analysis error there is nothing
    to build: the call returns no action and no error, and resolves no
    file.  This covers an empty list of diagnostics and an analysis without
    errors. *)
Theorem SuggestedFixes_nothing_matches `{Externals}
    snapshot mth errs diags :
  ModTidyHandle snapshot = Ok mth →
  Tidy mth = Ok errs →
  (∀ d e, d ∈ diags → e ∈ errs → sameDiagnostic d e = false) →
  SuggestedFixes snapshot diags = Ok [].
Proof.
  intros Hmth Herrs Hnone.
  rewrite (SuggestedFixes_main _ _ _ _ Hmth Herrs).
  by rewrite (join_unmatched_all _ _ Hnone).
Qed.

(** In [unresolvableSnapshot] no file resolves; the diagnostic differs from
    the error in its source. *)
Lemma SuggestedFixes_nothing_matches_witness :
  @SuggestedFixes sampleExternals (unresolvableSnapshot [unusedError])
    [unusedSyntaxDiag] = Ok [].
Proof.
  apply (@SuggestedFixes_nothing_matches sampleExternals
           (unresolvableSnapshot [unusedError])
           {| Tidy := Ok [unusedError] |} [unusedError] [unusedSyntaxDiag]
           eq_refl eq_refl).
  intros d e ->%list_elem_of_singleton ->%list_elem_of_singleton.
  reflexivity.
Defined.

(** X10: the actions for a list of diagnostics are those for its parts, one
    after the other: when the call on [diags1 ++ diags2] succeeds, so do
    the calls on [diags1] and on [diags2], and the titles and diagnostics of
    its actions are theirs in that order. *)
Theorem SuggestedFixes_app `{Externals}
    snapshot mth errs diags1 diags2 acts :
  ModTidyHandle snapshot = Ok mth →
  Tidy mth = Ok errs →
  SuggestedFixes snapshot (diags1 ++ diags2) = Ok acts →
  ∃ acts1 acts2,
    SuggestedFixes snapshot diags1 = Ok acts1
    ∧ SuggestedFixes snapshot diags2 = Ok acts2
    ∧ titleAndDiagnostics <$> acts
      = (titleAndDiagnostics <$> acts1) ++ (titleAndDiagnostics <$> acts2).
Proof.
  intros Hmth Herrs Hacts.
  pose proof (SuggestedFixes_Ok_Resolves _ _ _ _ _ Hmth Herrs Hacts) as Hres.
  rewrite join_app in Hres. apply Forall_app in Hres as [Hres1 Hres2].
  destruct (SuggestedFixes_total _ _ _ _ Hmth Herrs Hres1) as [acts1 Hacts1].
  destruct (SuggestedFixes_total _ _ _ _ Hmth Herrs Hres2) as [acts2 Hacts2].
  exists acts1, acts2. split_and!; [done..|].
  unfold titleAndDiagnostics.
  rewrite (DerivedFrom_titles snapshot _ _
             (SuggestedFixes_Ok _ _ _ _ _ Hmth Herrs Hacts)).
  rewrite (DerivedFrom_titles snapshot _ _
             (SuggestedFixes_Ok _ _ _ _ _ Hmth Herrs Hacts1)).
  rewrite (DerivedFrom_titles snapshot _ _
             (SuggestedFixes_Ok _ _ _ _ _ Hmth Herrs Hacts2)).
  by rewrite join_app, fmap_app.
Qed.

Lemma SuggestedFixes_app_witness :
  ∃ acts acts1 acts2,
    @SuggestedFixes sampleExternals (sampleSnapshot sampleErrors)
      ([missingDiag] ++ [unusedDiag]) = Ok acts
    ∧ @SuggestedFixes sampleExternals (sampleSnapshot sampleErrors)
        [missingDiag] = Ok acts1
    ∧ @SuggestedFixes sampleExternals (sampleSnapshot sampleErrors)
        [unusedDiag] = Ok acts2
    ∧ titleAndDiagnostics <$> acts
      = (titleAndDiagnostics <$> acts1) ++ (titleAndDiagnostics <$> acts2).
Proof.
  assert (∃ acts, @SuggestedFixes sampleExternals
                    (sampleSnapshot sampleErrors)
                    ([missingDiag] ++ [unusedDiag]) = Ok acts)
    as [acts Hacts] by (eexists; reflexivity).
  exists acts.
  destruct (@SuggestedFixes_app sampleExternals (sampleSnapshot sampleErrors)
              {| Tidy := Ok sampleErrors |} sampleErrors
              [missingDiag] [unusedDiag] acts eq_refl eq_refl Hacts)
    as (acts1 & acts2 & H1 & H2 & H3).
  exists acts1, acts2. by split_and!.
Defined.

(** X11: with the analysis at hand, the call returns actions exactly when
    every file touched by a fix of an error matched by an input diagnostic
    resolves. *)
Theorem SuggestedFixes_succeeds_iff `{Externals} snapshot mth errs diags :
  ModTidyHandle snapshot = Ok mth →
  Tidy mth = Ok errs →
  (∃ acts, SuggestedFixes snapshot diags = Ok acts)
  ↔ ∀ D E X uri,
      D ∈ diags → E ∈ errs → sameDiagnostic D E = true →
      X ∈ Error_SuggestedFixes E →
      uri ∈ dom (SuggestedFix_Edits X) →
      ∃ fh, GetFile snapshot uri = Ok fh.
Proof.
  intros Hmth Herrs. split.
  - intros [acts Hacts] D E X uri HD HE Hsame HX Huri.
    pose proof (SuggestedFixes_Ok_Resolves _ _ _ _ _ Hmth Herrs Hacts)
      as Hres.
    rewrite Forall_forall in Hres.
    assert ((D, E, X) ∈ join errs diags) as Hin by by apply elem_of_join.
    specialize (Hres _ Hin uri Huri). simpl in Hres.
    destruct (GetFile snapshot uri) as [fh|]; [eauto|done].
  - intros Hall. apply (SuggestedFixes_total _ _ _ _ Hmth Herrs).
    apply Forall_forall.
    intros [[D E] X] (HD & HE & HX & Hsame)%elem_of_join uri Huri. simpl.
    by destruct (Hall D E X uri HD HE Hsame HX Huri) as [fh ->].
Qed.

Lemma SuggestedFixes_succeeds_iff_witness :
  ∃ acts, @SuggestedFixes sampleExternals (sampleSnapshot sampleErrors)
            [unusedDiag; missingDiag] = Ok acts.
Proof.
  apply (proj2 (@SuggestedFixes_succeeds_iff sampleExternals
                  (sampleSnapshot sampleErrors)
                  {| Tidy := Ok sampleErrors |} sampleErrors
                  [unusedDiag; missingDiag] eq_refl eq_refl)).
  intros D E X uri _ HE _ HX Huri.
  assert (uri = "file:///go.mod") as ->.
  { apply list_elem_of_In in HE. simpl in HE.
    destruct HE as [<-|[<-|[<-|[]]]];
      apply list_elem_of_In in HX; simpl in HX;
      try destruct HX as [<-|[]]; try destruct HX;
      simpl in Huri; rewrite dom_singleton_L in Huri;
      by apply elem_of_singleton in Huri. }
  by eexists.
Defined.



(** * Package [bug] *)

(** ** The order of keys *)

Lemma String_leb_trans a b c :
  String.leb a b = true → String.leb b c = true → String.leb a c = true.
Proof.
  unfold String.leb. revert b c.
  induction a as [|x a IH]; intros [|y b] [|z c]; simpl; try done.
  unfold Ascii.compare.
  destruct (N.compare_spec (N_of_ascii x) (N_of_ascii y)) as [Hxy|Hxy|Hxy];
    destruct (N.compare_spec (N_of_ascii y) (N_of_ascii z)) as [Hyz|Hyz|Hyz];
    destruct (N.compare_spec (N_of_ascii x) (N_of_ascii z)) as [Hxz|Hxz|Hxz];
    try done; try lia.
  apply IH.
Qed.

Global Instance keyLe_trans : Transitive bug.keyLe.
Proof. intros a b c. apply String_leb_trans. Qed.

Global Instance keyLe_total : Total bug.keyLe.
Proof. intros a b. apply String.leb_total. Qed.

(** ** The key of a call site *)

Lemma pretty_N_go_colon x s :
  regexp.occurs ":"%char (pretty_N_go x s) = regexp.occurs ":"%char s.
Proof.
  revert s. induction (N.lt_wf_0 x) as [x _ IH]; intros s.
  destruct (decide (x = 0%N)) as [->|Hx]; [done|].
  rewrite pretty_N_go_step by lia.
  rewrite IH by (apply N.div_lt; lia). simpl.
  unfold pretty_N_char. by repeat case_match.
Qed.

Lemma pretty_Z_colon (z : Z) : regexp.occurs ":"%char (pretty z) = false.
Proof.
  assert (∀ n : N, regexp.occurs ":"%char (pretty n) = false) as HN.
  { intros n. unfold pretty, pretty_N. case_decide; [done|].
    by rewrite pretty_N_go_colon. }
  destruct z as [|p|p]; [done|apply HN|].
  unfold pretty, pretty_Z. simpl. apply HN.
Qed.

(** Splitting at the last separator undoes putting two texts around it. *)
Lemma splitLast_app sep m v :
  regexp.occurs sep v = false →
  regexp.splitLast sep (m +:+ String sep v) = Some (m, v).
Proof.
  intros Hv. induction m as [|c m IH]; simpl.
  - apply splitLast_None in Hv as ->. by rewrite Ascii.eqb_refl.
  - by rewrite IH.
Qed.

(** X13: the key identifies the call site: two call sites with one key are
    the same file and line, and the key of an unknown caller is the key of
    no call site. *)
Theorem keyOf_inj caller1 caller2 :
  bug.keyOf caller1 = bug.keyOf caller2 → caller1 = caller2.
Proof.
  assert (∀ file line,
            regexp.splitLast ":"%char (bug.keyOf (Some (file, line)))
            = Some (file, pretty line)) as Hsome.
  { intros file line. apply splitLast_app, pretty_Z_colon. }
  destruct caller1 as [[f1 l1]|], caller2 as [[f2 l2]|]; intros Hkey.
  - pose proof (Hsome f1 l1) as H1. rewrite Hkey, Hsome in H1.
    injection H1 as -> Hl. by apply (inj pretty) in Hl as ->.
  - pose proof (Hsome f1 l1) as H1. by rewrite Hkey in H1.
  - pose proof (Hsome f2 l2) as H2. by rewrite <-Hkey in H2.
  - done.
Qed.

(** ** Histories *)

Lemma sent_emptyChan : bug.sent bug.emptyChan = [].
Proof. done. Qed.

(** Sending to waiters that are distinct and untouched fills the slot of
    each and leaves the other channels alone. *)
Lemma notifyWaiters_fresh ws b chans :
  NoDup ws →
  (∀ w, w ∈ ws → chans !! w = Some bug.emptyChan) →
  ∃ chans',
    bug.notifyWaiters ws b chans = Some chans'
    ∧ length chans' = length chans
    ∧ (∀ w, w ∈ ws →
            chans' !! w = Some {| bug.buffer := Some b; bug.received := [] |})
    ∧ (∀ i, i ∉ ws → chans' !! i = chans !! i).
Proof.
  intros Hnd. revert chans.
  induction Hnd as [|w ws Hw Hnd IH]; intros chans Hempty; simpl.
  - exists chans. split_and!; [done|done| |done]. by intros w ?%elem_of_nil.
  - rewrite (Hempty w) by by left. simpl.
    destruct (IH (<[w := {| bug.buffer := Some b; bug.received := [] |}]> chans))
      as (chans' & -> & Hlen & Hin & Hout).
    { intros w' Hw'. rewrite list_lookup_insert_ne by (intros ->; done).
      apply Hempty. by right. }
    exists chans'. split_and!; [done|by rewrite Hlen, length_insert| |].
    + intros w' Hw'. destruct (decide (w' = w)) as [->|Hne].
      * rewrite Hout by done. apply list_lookup_insert_eq.
        apply lookup_lt_is_Some. rewrite (Hempty w); [by eexists|by left].
      * apply Hin. by apply elem_of_cons in Hw' as [?|?].
    + intros i [Hi1 Hi2]%not_elem_of_cons.
      by rewrite Hout, list_lookup_insert_ne.
Qed.

(** Whatever the state, a send loop that ends has touched the waiters
    only. *)
Lemma notifyWaiters_others ws b chans chans' i :
  bug.notifyWaiters ws b chans = Some chans' →
  i ∉ ws → chans' !! i = chans !! i.
Proof.
  revert chans. induction ws as [|w ws IH]; intros chans; simpl.
  - by intros [= ->].
  - destruct (chans !! w) as [[[b'|] r]|]; try done.
    intros Hrest [Hi1 Hi2]%not_elem_of_cons.
    by rewrite (IH _ Hrest Hi2), list_lookup_insert_ne.
Qed.

Lemma notifyWaiters_length ws b chans chans' :
  bug.notifyWaiters ws b chans = Some chans' → length chans' = length chans.
Proof.
  revert chans. induction ws as [|w ws IH]; intros chans; simpl.
  - by intros [= ->].
  - destruct (chans !! w) as [[[b'|] r]|]; try done.
    intros ->%IH. apply length_insert.
Qed.

Lemma Inv_init : bug.Inv bug.init.
Proof.
  split_and!; simpl.
  - intros k b. by rewrite lookup_empty.
  - constructor.
  - by intros w ?%elem_of_nil.
  - by intros ch c.
Qed.

(** Under the invariant a report does not block, and the invariant holds
    after it. *)
Lemma report_Inv caller stack description st :
  bug.Inv st →
  bug.PanicOnBugs st = false →
  ∃ st', bug.report caller stack description st = bug.Returns () st'
         ∧ bug.Inv st'.
Proof.
  intros (Hkey & Hnd & Hempty & Hone) Hpanic. unfold bug.report.
  rewrite Hpanic.
  destruct (notifyWaiters_fresh (bug.waiters st)
              (bug.newBug caller stack description) (bug.channels st)
              Hnd Hempty) as (chans' & -> & Hlen & Hin & Hout).
  eexists. split; [done|]. split_and!; simpl.
  - intros k b. destruct (bug.exemplars st !! bug.keyOf caller) eqn:Hk;
      [apply Hkey|].
    destruct (decide (bug.keyOf caller = k)) as [<-|Hne].
    + rewrite lookup_insert_eq. by intros [= <-].
    + rewrite lookup_insert_ne by done. apply Hkey.
  - constructor.
  - by intros w ?%elem_of_nil.
  - intros ch c Hc. destruct (decide (ch ∈ bug.waiters st)) as [Hw|Hw].
    + rewrite (Hin ch Hw) in Hc. by injection Hc as <-.
    + rewrite (Hout ch Hw) in Hc. by eapply Hone.
Qed.

Lemma Notify_Inv st : bug.Inv st → bug.Inv (bug.Notify st).2.
Proof.
  intros (Hkey & Hnd & Hempty & Hone). split_and!; simpl; [done| | |].
  - apply NoDup_app. split_and!; [done| |apply NoDup_singleton].
    intros w Hw Hw'. apply list_elem_of_singleton in Hw' as ->.
    pose proof (Hempty _ Hw) as Hlt%lookup_lt_Some. lia.
  - intros w [Hw|Hw]%elem_of_app;
      [|apply list_elem_of_singleton in Hw as ->].
    + rewrite lookup_app_l; [by apply Hempty|].
      eapply lookup_lt_Some. by apply Hempty.
    + by rewrite lookup_app_r, Nat.sub_diag.
  - intros ch c Hc. apply lookup_app_Some in Hc as [Hc|[_ Hc]];
      [by eapply Hone|].
    destruct (ch - length (bug.channels st)) as [|n]; [|done].
    injection Hc as <-. simpl. lia.
Qed.

Lemma Receive_lookup ch st i :
  bug.channels (bug.Receive ch st) !! i
  = match bug.channels st !! i with
    | Some {| bug.buffer := Some b; bug.received := r |} =>
        if decide (i = ch)
        then Some {| bug.buffer := None; bug.received := r ++ [b] |}
        else bug.channels st !! i
    | other => other
    end.
Proof.
  unfold bug.Receive.
  destruct (bug.channels st !! ch) as [[[b|] r]|] eqn:Hch; simpl.
  - destruct (decide (i = ch)) as [->|Hne].
    + rewrite Hch, list_lookup_insert_eq; [done|]. by eapply lookup_lt_Some.
    + rewrite list_lookup_insert_ne by done.
      by destruct (bug.channels st !! i) as [[[b'|] r']|].
  - destruct (bug.channels st !! i) as [[[b'|] r']|] eqn:Hi; try done.
    case_decide; [|done]. subst i. congruence.
  - destruct (bug.channels st !! i) as [[[b'|] r']|] eqn:Hi; try done.
    case_decide; [|done]. subst i. congruence.
Qed.

(** A read keeps what was sent on every channel. *)
Lemma Receive_sent ch st i :
  bug.sent <$> bug.channels (bug.Receive ch st) !! i
  = bug.sent <$> bug.channels st !! i.
Proof.
  rewrite Receive_lookup.
  destruct (bug.channels st !! i) as [[[b|] r]|]; try done.
  case_decide; [|done]. simpl. unfold bug.sent. simpl.
  by rewrite app_nil_r.
Qed.

Lemma Receive_Inv ch st : bug.Inv st → bug.Inv (bug.Receive ch st).
Proof.
  intros (Hkey & Hnd & Hempty & Hone).
  assert (bug.exemplars (bug.Receive ch st) = bug.exemplars st
          ∧ bug.waiters (bug.Receive ch st) = bug.waiters st) as [He Hw].
  { unfold bug.Receive.
    by destruct (bug.channels st !! ch) as [[[b|] r]|]. }
  split_and!; rewrite ?He, ?Hw; [done|done| |].
  - intros w Hin. rewrite Receive_lookup, (Hempty w Hin). done.
  - intros i c Hc.
    pose proof (Receive_sent ch st i) as Hs. rewrite Hc in Hs. simpl in Hs.
    destruct (bug.channels st !! i) as [c'|] eqn:Hi; [|done].
    injection Hs as ->. by eapply Hone.
Qed.

Lemma step_Inv op st :
  bug.Inv st → ∃ st', bug.step op st = Some st' ∧ bug.Inv st'.
Proof.
  intros Hinv. destruct op as [caller stack description| |ch|b]; simpl.
  - destruct (bug.PanicOnBugs st) eqn:Hpanic.
    + unfold bug.report. rewrite Hpanic. eauto.
    + destruct (report_Inv caller stack description st Hinv Hpanic)
        as (st' & -> & Hinv'). eauto.
  - eexists. split; [done|]. by apply Notify_Inv.
  - eexists. split; [done|]. by apply Receive_Inv.
  - eexists. split; [done|]. exact Hinv.
Qed.

Lemma run_Inv ops st :
  bug.Inv st → ∃ st', bug.run ops st = Some st' ∧ bug.Inv st'.
Proof.
  revert st. induction ops as [|op ops IH]; intros st Hinv; simpl; [eauto|].
  destruct (step_Inv op st Hinv) as (st1 & -> & Hinv1). by apply IH.
Qed.

Lemma run_app ops1 ops2 st :
  bug.run (ops1 ++ ops2) st
  = match bug.run ops1 st with
    | Some st' => bug.run ops2 st'
    | None => None
    end.
Proof.
  revert st. induction ops1 as [|op ops1 IH]; intros st; simpl; [done|].
  by destruct (bug.step op st).
Qed.

Lemma Receive_waiters ch st : bug.waiters (bug.Receive ch st) = bug.waiters st.
Proof.
  unfold bug.Receive. by destruct (bug.channels st !! ch) as [[[b|] r]|].
Qed.

(** Reports that panic, and whatever is not a report, keep who waits. *)
Lemma run_waiters_noReturn ops st st' w :
  bug.noReturn ops st = true → bug.run ops st = Some st' →
  w ∈ bug.waiters st → w ∈ bug.waiters st'.
Proof.
  revert st. induction ops as [|op ops IH]; intros st; simpl.
  - by intros _ [= ->].
  - destruct op as [caller stack description| |ch|b]; simpl.
    + destruct (bug.report caller stack description st); [done| |done].
      apply IH.
    + intros Hq Hrun Hw. eapply IH; [done..|]. simpl. set_solver.
    + intros Hq Hrun Hw. eapply IH; [done..|]. by rewrite Receive_waiters.
    + intros Hq Hrun Hw. by eapply IH.
Qed.

(** A channel that waits no longer keeps what was sent on it. *)
Lemma step_frozen op st st' ch l :
  bug.step op st = Some st' →
  ch ∉ bug.waiters st →
  bug.sent <$> (bug.channels st !! ch) = Some l →
  (ch ∉ bug.waiters st') ∧ bug.sent <$> (bug.channels st' !! ch) = Some l.
Proof.
  destruct op as [caller stack description| |ch'|b]; simpl.
  - unfold bug.report. destruct (bug.PanicOnBugs st); [by intros [= <-]|].
    destruct (bug.notifyWaiters _ _ _) as [chans|] eqn:Hsend; [|done].
    intros [= <-] Hw Hl. simpl. split; [by intros ?%elem_of_nil|].
    by rewrite (notifyWaiters_others _ _ _ _ _ Hsend Hw).
  - intros [= <-] Hw Hl. simpl.
    assert (ch < length (bug.channels st)) as Hlt.
    { destruct (bug.channels st !! ch) eqn:Hc; [|done].
      by eapply lookup_lt_Some. }
    split.
    + intros [?|Heq%list_elem_of_singleton]%elem_of_app; [done|lia].
    + by rewrite lookup_app_l.
  - intros [= <-] Hw Hl. split; [|by rewrite Receive_sent].
    unfold bug.Receive. by destruct (bug.channels st !! ch') as [[[b|] r]|].
  - by intros [= <-].
Qed.

Lemma run_frozen ops st st' ch l :
  bug.run ops st = Some st' →
  ch ∉ bug.waiters st →
  bug.sent <$> (bug.channels st !! ch) = Some l →
  bug.sent <$> (bug.channels st' !! ch) = Some l.
Proof.
  revert st. induction ops as [|op ops IH]; intros st; simpl.
  - by intros [= ->].
  - destruct (bug.step op st) as [st1|] eqn:Hstep; [|done].
    intros Hrun Hw Hl.
    destruct (step_frozen _ _ _ _ _ Hstep Hw Hl) as [Hw1 Hl1]. eauto.
Qed.

(** An exemplar, once taken, stays. *)
Lemma step_exemplars op st st' k b :
  bug.step op st = Some st' →
  bug.exemplars st !! k = Some b → bug.exemplars st' !! k = Some b.
Proof.
  destruct op as [caller stack description| |ch|b']; simpl.
  - unfold bug.report. destruct (bug.PanicOnBugs st); [by intros [= <-]|].
    destruct (bug.notifyWaiters _ _ _) as [chans|]; [|done].
    intros [= <-] Hk. simpl.
    destruct (bug.exemplars st !! bug.keyOf caller) eqn:Hkey; [done|].
    rewrite lookup_insert_ne; [done|]. intros Heq. congruence.
  - by intros [= <-].
  - intros [= <-]. unfold bug.Receive.
    by destruct (bug.channels st !! ch) as [[[b0|] r]|].
  - by intros [= <-].
Qed.

Lemma run_exemplars ops st st' k b :
  bug.run ops st = Some st' →
  bug.exemplars st !! k = Some b → bug.exemplars st' !! k = Some b.
Proof.
  revert st. induction ops as [|op ops IH]; intros st; simpl.
  - by intros [= ->].
  - destruct (bug.step op st) as [st1|] eqn:Hstep; [|done].
    intros Hrun Hk. eapply IH; [done|]. by eapply step_exemplars.
Qed.

Lemma String_leb_ltb a b :
  String.leb a b = true → a ≠ b → String.ltb a b = true.
Proof.
  unfold String.leb, String.ltb.
  destruct (String.compare a b) eqn:Hc; try done.
  intros _ Hne. by apply String.compare_eq_iff in Hc.
Qed.

Lemma StronglySorted_strict (l : list string) :
  StronglySorted (λ a b, String.leb a b = true) l → NoDup l →
  StronglySorted (λ a b, String.ltb a b = true) l.
Proof.
  induction 1 as [|a l Hl IH Ha]; intros Hnd; [constructor|].
  apply NoDup_cons in Hnd as [Hnotin Hnd].
  constructor; [by apply IH|].
  rewrite Forall_forall in Ha |- *. intros b Hb.
  apply String_leb_ltb; [by apply Ha|]. by intros ->.
Qed.

(** Under the invariant, the keys of the exemplars are the keys of the
    map. *)
Lemma exemplar_keys (m : gmap string bug.Bug) :
  (∀ k b, m !! k = Some b → bug.Key b = k) →
  bug.Key <$> (map_to_list m).*2 = (map_to_list m).*1.
Proof.
  intros Hkey. rewrite <-list_fmap_compose.
  apply list_fmap_ext. intros i [k b] Hi. simpl.
  apply Hkey, elem_of_map_to_list, list_elem_of_lookup. eauto.
Qed.

(** X14: bug reporting does not block.  After any history of reports,
    [Notify] calls, channel reads and changes of [PanicOnBugs], the package
    is in a state in which a report returns or, with [PanicOnBugs] set,
    panics; no send of a report ever finds the buffer of a waiting channel
    taken. *)
Theorem report_never_blocks ops :
  ∃ st, bug.run ops bug.init = Some st
        ∧ ∀ caller stack description,
            bug.report caller stack description st ≠ bug.Blocks.
Proof.
  destruct (run_Inv ops bug.init Inv_init) as (st & Hrun & Hinv).
  exists st. split; [done|]. intros caller stack description.
  destruct (bug.PanicOnBugs st) eqn:Hpanic.
  - unfold bug.report. by rewrite Hpanic.
  - by destruct (report_Inv caller stack description st Hinv Hpanic)
      as (st' & -> & _).
Qed.

(** X15: the channel returned by [Notify] is sent the next bug reported
    without panicking, and only that one.  After [Notify], in any history
    whose reports all panic (whatever else is read, whoever else asks to be
    notified, however [PanicOnBugs] is assigned), nothing has been sent on
    the channel; the first report that does not panic returns and puts its
    bug on the channel; and whatever follows, that bug stays the only one
    ever sent on it. *)
Theorem Notify_receives_next_bug
    ops0 st ops1 st1 caller stack description ops2 :
  bug.run ops0 bug.init = Some st →
  bug.noReturn ops1 (bug.Notify st).2 = true →
  bug.run ops1 (bug.Notify st).2 = Some st1 →
  bug.PanicOnBugs st1 = false →
  bug.sent <$> (bug.channels st1 !! (bug.Notify st).1) = Some []
  ∧ ∃ st2,
      bug.report caller stack description st1 = bug.Returns () st2
      ∧ ∀ st3, bug.run ops2 st2 = Some st3 →
               bug.sent <$> (bug.channels st3 !! (bug.Notify st).1)
               = Some [bug.newBug caller stack description].
Proof.
  intros Hrun0 Hquiet Hrun1 Hpanic.
  destruct (run_Inv ops0 bug.init Inv_init) as (st' & Hrun0' & Hinv).
  rewrite Hrun0 in Hrun0'. injection Hrun0' as <-.
  destruct (run_Inv ops1 _ (Notify_Inv st Hinv)) as (st1' & Hrun1' & Hinv1).
  rewrite Hrun1 in Hrun1'. injection Hrun1' as <-.
  assert ((bug.Notify st).1 ∈ bug.waiters st1) as Hwait.
  { eapply run_waiters_noReturn; [done..|]. simpl. set_solver. }
  pose proof Hinv1 as (_ & Hnd & Hempty & _).
  split; [by rewrite (Hempty _ Hwait)|].
  unfold bug.report. rewrite Hpanic.
  destruct (notifyWaiters_fresh (bug.waiters st1)
              (bug.newBug caller stack description) (bug.channels st1)
              Hnd Hempty) as (chans' & -> & _ & Hin & _).
  eexists. split; [done|]. intros st3 Hrun2.
  eapply run_frozen; [exact Hrun2|simpl; by intros ?%elem_of_nil|].
  cbn [bug.channels]. by rewrite (Hin _ Hwait).
Qed.

(** A second [Notify]; then, with [PanicOnBugs] set, a report that panics
    and a read; the report after [PanicOnBugs] is cleared is the one
    delivered. *)
Lemma Notify_receives_next_bug_witness :
  bug.run [bug.OpSetPanic true;
           bug.OpReport (Some ("view.go", 7%Z)) "goroutine 1" "lost";
           bug.OpReceive 0;
           bug.OpSetPanic false] (bug.Notify (bug.Notify bug.init).2).2
  = Some (bug.Notify (bug.Notify bug.init).2).2
  ∧ bug.sent <$> (bug.channels (bug.Notify (bug.Notify bug.init).2).2 !! 1)
    = Some []
  ∧ ∃ st2,
      bug.report (Some ("cache.go", 120%Z)) "goroutine 1" "missing package"
        (bug.Notify (bug.Notify bug.init).2).2
      = bug.Returns () st2
      ∧ ∀ st3,
          bug.run [bug.OpReport (Some ("view.go", 7%Z)) "goroutine 1" "again";
                   bug.OpReceive 1] st2 = Some st3 →
          bug.sent <$> (bug.channels st3 !! 1)
          = Some [bug.newBug (Some ("cache.go", 120%Z)) "goroutine 1"
                    "missing package"].
Proof.
  split; [reflexivity|].
  apply (Notify_receives_next_bug [bug.OpNotify] (bug.Notify bug.init).2
           [bug.OpSetPanic true;
            bug.OpReport (Some ("view.go", 7%Z)) "goroutine 1" "lost";
            bug.OpReceive 0;
            bug.OpSetPanic false]
           (bug.Notify (bug.Notify bug.init).2).2).
  - reflexivity.
  - reflexivity.
  - reflexivity.
  - reflexivity.
Defined.

(** X16: one exemplar for each key, the first.  After a report that
    returns, the exemplar of its call site is the bug just reported when
    the site had none, and the one it had otherwise; nothing that follows
    replaces or removes it. *)
Theorem first_exemplar_persists st caller stack description st1 ops st2 :
  bug.report caller stack description st = bug.Returns () st1 →
  bug.run ops st1 = Some st2 →
  bug.exemplars st2 !! bug.keyOf caller
  = Some (default (bug.newBug caller stack description)
            (bug.exemplars st !! bug.keyOf caller)).
Proof.
  unfold bug.report. destruct (bug.PanicOnBugs st); [done|].
  destruct (bug.notifyWaiters _ _ _) as [chans|]; [|done].
  intros [= <-] Hrun. eapply run_exemplars; [exact Hrun|]. simpl.
  destruct (bug.exemplars st !! bug.keyOf caller) eqn:Hkey; [done|].
  simpl. apply lookup_insert_eq.
Qed.

Lemma first_exemplar_persists_witness :
  (bug.run [bug.OpReport (Some ("cache.go", 120%Z)) "goroutine 9" "again";
            bug.OpNotify]
     {| bug.PanicOnBugs := false;
        bug.exemplars :=
          {[ "cache.go:120" :=
               bug.newBug (Some ("cache.go", 120%Z)) "goroutine 1"
                 "missing package" ]};
        bug.waiters := [];
        bug.channels := [] |}
   ≫= λ st2, bug.exemplars st2 !! "cache.go:120")
  = Some (bug.newBug (Some ("cache.go", 120%Z)) "goroutine 1"
            "missing package").
Proof.
  destruct (bug.run _ _) as [st2|] eqn:Hrun; [|discriminate Hrun].
  exact (first_exemplar_persists bug.init (Some ("cache.go", 120%Z))
           "goroutine 1" "missing package" _ _ st2 eq_refl Hrun).
Defined.

(** X17: after any history, [List] returns the exemplars, each once, with
    keys in strictly ascending order; a bug is listed exactly when it is the
    exemplar of its key.  The result depends neither on the order in which
    the map is walked nor on the sorting algorithm: every sorted arrangement
    of the exemplars is the list returned. *)
Theorem List_sorted `{bug.Runtime} ops st :
  bug.run ops bug.init = Some st →
  bug.List st ≡ₚ (map_to_list (bug.exemplars st)).*2
  ∧ StronglySorted (λ a b, String.ltb a b = true) (bug.Key <$> bug.List st)
  ∧ (∀ b, b ∈ bug.List st ↔ bug.exemplars st !! bug.Key b = Some b)
  ∧ (∀ l, l ≡ₚ (map_to_list (bug.exemplars st)).*2 →
          Sorted bug.keyLe l → l = bug.List st).
Proof.
  intros Hrun.
  destruct (run_Inv ops bug.init Inv_init) as (st' & Hrun' & Hinv).
  rewrite Hrun in Hrun'. injection Hrun' as <-.
  destruct Hinv as (Hkey & _).
  assert (bug.List st ≡ₚ (map_to_list (bug.exemplars st)).*2) as Hperm.
  { unfold bug.List. rewrite merge_sort_Permutation.
    by rewrite bug.rangeExemplars_perm. }
  assert (∀ b, b ∈ bug.List st ↔ bug.exemplars st !! bug.Key b = Some b)
    as Hin.
  { intros b. rewrite Hperm, list_elem_of_fmap. split.
    - intros ([k b'] & -> & Hkb%elem_of_map_to_list). simpl.
      by rewrite (Hkey _ _ Hkb).
    - intros Hb. exists (bug.Key b, b). split; [done|].
      by apply elem_of_map_to_list. }
  split_and!; [done| |done|].
  - apply StronglySorted_strict.
    + eapply StronglySorted_fmap with (R1 := bug.keyLe); [done|].
      apply StronglySorted_merge_sort; apply _.
    + rewrite Hperm, (exemplar_keys _ Hkey). apply NoDup_fst_map_to_list.
  - intros l Hl Hsorted.
    apply (Sorted_unique_strong bug.keyLe); [|done| |by rewrite Hperm].
    + intros b1 b2 Hb1 Hb2 H12 H21.
      rewrite Hl, <-Hperm in Hb1. apply Hin in Hb1, Hb2.
      rewrite (String.leb_antisym _ _ H12 H21) in Hb1. congruence.
    + apply Sorted_merge_sort. apply _.
Qed.

Lemma List_sorted_witness :
  (bug.run [bug.OpReport (Some ("view.go", 7%Z)) "goroutine 1" "no view";
            bug.OpReport (Some ("cache.go", 120%Z)) "goroutine 1"
              "missing package";
            bug.OpReport (Some ("view.go", 7%Z)) "goroutine 2" "again"]
     bug.init
   ≫= λ st, Some (bug.Key <$> @bug.List bug.sampleRuntime st))
  = Some ["cache.go:120"; "view.go:7"]
  ∧ StronglySorted (λ a b, String.ltb a b = true)
      ["cache.go:120"; "view.go:7"].
Proof.
  destruct (bug.run _ bug.init) as [st|] eqn:Hrun; [|discriminate Hrun].
  pose proof (@List_sorted bug.sampleRuntime _ st Hrun) as (_ & Hsorted & _).
  injection Hrun as <-. split; [reflexivity|exact Hsorted].
Defined.

Lemma keyOf_inj_witness :
  Some ("cache.go", 120%Z) = Some ("cache.go", 120%Z)
  ∧ bug.keyOf (Some ("cache.go:1", 20%Z)) ≠ bug.keyOf (Some ("cache.go", 120%Z)).
Proof.
  split.
  - exact (keyOf_inj (Some ("cache.go", 120%Z)) (Some ("cache.go", 120%Z))
             eq_refl).
  - intros Heq. discriminate (keyOf_inj _ _ Heq).
Defined.

Lemma step_channels_length op st st' :
  bug.step op st = Some st' →
  length (bug.channels st) ≤ length (bug.channels st').
Proof.
  destruct op as [caller stack description| |ch|b]; simpl.
  - unfold bug.report. destruct (bug.PanicOnBugs st); [by intros [= <-]|].
    destruct (bug.notifyWaiters _ _ _) as [chans|] eqn:Hsend; [|done].
    intros [= <-]. simpl. by rewrite (notifyWaiters_length _ _ _ _ Hsend).
  - intros [= <-]. simpl. rewrite length_app. lia.
  - intros [= <-]. unfold bug.Receive.
    destruct (bug.channels st !! ch) as [[[b|] r]|]; simpl;
      by rewrite ?length_insert.
  - by intros [= <-].
Qed.

Lemma run_channels_length ops st st' :
  bug.run ops st = Some st' →
  length (bug.channels st) ≤ length (bug.channels st').
Proof.
  revert st. induction ops as [|op ops IH]; intros st; simpl.
  - by intros [= ->].
  - destruct (bug.step op st) as [st1|] eqn:Hstep; [|done].
    intros Hrun%IH. apply step_channels_length in Hstep. lia.
Qed.

(** X18: every call of [Notify] returns a channel of its own: whatever
    happens after one call, a later call returns another channel. *)
Theorem Notify_fresh st ops st' :
  bug.run ops (bug.Notify st).2 = Some st' →
  (bug.Notify st').1 ≠ (bug.Notify st).1.
Proof.
  intros Hrun%run_channels_length. simpl in *.
  rewrite length_app in Hrun. simpl in Hrun. lia.
Qed.

Lemma Notify_fresh_witness :
  (bug.Notify
     (bug.Receive 0
        (bug.Notify bug.init).2)).1 ≠ (bug.Notify bug.init).1.
Proof.
  apply (Notify_fresh bug.init [bug.OpReceive 0]). reflexivity.
Defined.

(** The three exported reporting functions are [report] on a text: [Reportf]
    on the text of [fmt.Sprintf], [Errorf] on the text of the error it
    returns. *)
Lemma Reportf_report `{bug.Runtime} caller stack format args st :
  bug.Reportf caller stack format args st
  = bug.Report caller stack (bug.Sprintf format args) st.
Proof. done. Qed.

Lemma Errorf_report `{bug.Runtime} caller stack format args st err st' :
  bug.Errorf caller stack format args st = bug.Returns err st' →
  ∃ text, err = errorString text
          ∧ bug.Report caller stack text st = bug.Returns () st'.
Proof.
  unfold bug.Errorf, bug.Report.
  destruct (bug.report _ _ _ st) as [[] st1| |] eqn:Hreport; try done.
  intros [= <- <-]. eauto.
Qed.
